(** * Greedy multi-start maximum-clique search: model and properties

    A shallow embedding of the programs under [taskflow/]: the adjacency
    structure [Graph] (a vector of hash sets indexed by vertex), the greedy
    clique extender, the degree ordering, the neighbourhood-restricted
    trials, the best-clique holder shared by the trials, the random-graph
    generator and the DIMACS loader.

    Conventions.  A C++ [int] is a [Z]; a [std::vector<T>] is a [list T]
    ([push_back] appends at the end); a [std::unordered_set<int>] is a
    [gset Z].  An unchecked [operator[]] outside the vector is undefined
    behaviour and is modelled by [None]. *)

From Stdlib Require Import Ascii String.
From stdpp Require Import base numbers list sorting gmap option strings pretty.

#[local] Set Warnings "-clear-no-such-hyp".

Open Scope Z_scope.

(** ** The adjacency structure (class [Graph]) *)

Record Graph := mkGraph {
  num_vertices_ : Z;
  adj_list_ : list (gset Z)
}.

(** [Graph(int vertices) : num_vertices_(vertices), adj_list_(vertices)].
    A negative count converts to a huge [size_t] and the vector
    constructor throws [std::length_error]: no graph results. *)
Definition Graph_ctor (vertices : Z) : option Graph :=
  if decide (0 ≤ vertices)
  then Some (mkGraph vertices (replicate (Z.to_nat vertices) ∅))
  else None.

Definition get_num_vertices (g : Graph) : Z := num_vertices_ g.

(** [u >= 0 && u < num_vertices_] *)
Definition in_range (g : Graph) (u : Z) : bool :=
  (0 <=? u) && (u <? num_vertices_ g).

(** [adj_list_[u]], unchecked. *)
Definition adj_at (g : Graph) (u : Z) : option (gset Z) :=
  if decide (0 ≤ u) then adj_list_ g !! Z.to_nat u else None.

(** [adj_list_[u].insert(v)] for an index inside the vector. *)
Definition insert_at (u v : Z) (adj : list (gset Z)) : list (gset Z) :=
  alter (λ s, {[v]} ∪ s) (Z.to_nat u) adj.

(** [add_edge] with the range guard (all the [dataset_*] and
    [max_clique_*] programs). *)
Definition add_edge (g : Graph) (u v : Z) : Graph :=
  if in_range g u && in_range g v then
    mkGraph (num_vertices_ g) (insert_at v u (insert_at u v (adj_list_ g)))
  else g.

(** [return adj_list_[u].count(v);] *)
Definition is_adjacent (g : Graph) (u v : Z) : option bool :=
  (λ s : gset Z, bool_decide (v ∈ s)) <$> adj_at g u.

(** [(u >= 0 && u < num_vertices_) ? adj_list_[u].size() : 0] *)
Definition get_degree (g : Graph) (u : Z) : Z :=
  if in_range g u then
    match adj_at g u with
    | Some s => Z.of_nat (size s)
    | None => 0
    end
  else 0.

(** [if (u < 0 || u >= num_vertices_) return {};] then the elements of
    [adj_list_[u]] in the set's iteration order. *)
Definition get_neighbors (g : Graph) (u : Z) : list Z :=
  if (u <? 0) || (num_vertices_ g <=? u) then []
  else match adj_at g u with
       | Some s => elements s
       | None => []
       end.

(** The graphs a program can hold: the fields are private, so every graph
    is the constructor followed by [add_edge] calls. *)
Inductive constructed : Graph → Prop :=
  | constructed_ctor n g : Graph_ctor n = Some g → constructed g
  | constructed_add g u v : constructed g → constructed (add_edge g u v).

(** ** The greedy extender ([Graph::find_greedy_max_clique]) *)

(** The inner loop: [can_add] stays true until a member of the clique is
    not adjacent to [u], where the loop breaks. *)
Fixpoint can_add (g : Graph) (u : Z) (clique : list Z) : option bool :=
  match clique with
  | [] => Some true
  | v :: rest =>
      match is_adjacent g u v with
      | Some true => can_add g u rest
      | Some false => Some false
      | None => None
      end
  end.

(** The outer loop, from the clique built so far. *)
Fixpoint greedy_loop (g : Graph) (vertex_order clique : list Z)
  : option (list Z) :=
  match vertex_order with
  | [] => Some clique
  | u :: rest =>
      match can_add g u clique with
      | Some true => greedy_loop g rest (clique ++ [u])
      | Some false => greedy_loop g rest clique
      | None => None
      end
  end.

Definition find_greedy_max_clique (g : Graph) (vertex_order : list Z)
  : option (list Z) :=
  greedy_loop g vertex_order [].

(** Pairwise adjacency of a clique: distinct members are adjacent. *)
Definition pairwise_adjacent (g : Graph) (clique : list Z) : Prop :=
  ∀ u v, u ∈ clique → v ∈ clique → u ≠ v → is_adjacent g u v = Some true.

(** All the elements of an ordering are vertices of the graph. *)
Definition all_in_range (g : Graph) (l : list Z) : Prop :=
  Forall (λ u, in_range g u = true) l.

(** ** Structural invariant of constructed graphs *)

Record Graph_wf (g : Graph) : Prop := {
  wf_nonneg : 0 ≤ num_vertices_ g;
  wf_length : length (adj_list_ g) = Z.to_nat (num_vertices_ g);
  wf_members : ∀ u s v, adj_at g u = Some s → v ∈ s → in_range g v = true;
  wf_sym : ∀ u s v, adj_at g u = Some s → v ∈ s →
                    ∃ s', adj_at g v = Some s' ∧ u ∈ s'
}.

(** Adjacency as a relation. *)
Definition adjacent (g : Graph) (u v : Z) : Prop :=
  is_adjacent g u v = Some true.


#[global] Instance adjacent_dec g u v : Decision (adjacent g u v).
Proof. unfold adjacent. apply _. Defined.

(** What the outer loop of the greedy extender maintains. *)
Definition greedy_inv (g : Graph) (clique : list Z) : Prop :=
  all_in_range g clique ∧ pairwise_adjacent g clique.

(** Scenario A of the specification: [Graph g(4)] followed by
    [add_edge] for the edges 0-1, 0-2, 1-2 and 2-3. *)
Definition scenario_A : Graph :=
  add_edge (add_edge (add_edge (add_edge
    (mkGraph 4 (replicate 4 ∅)) 0 1) 0 2) 1 2) 2 3.

(** ** The degree ordering ([Graph::get_vertices_sorted_by_degree]) *)

(** [operator<] of [std::pair<int,int>]: lexicographic. *)
Definition pair_lt (p q : Z * Z) : bool :=
  (p.1 <? q.1) || (negb (q.1 <? p.1) && (p.2 <? q.2)).

(** The order a range is in after [std::sort] with comparison [lt]: no
    element is smaller than one before it. *)
Definition not_after {A} (lt : A → A → bool) : relation A :=
  λ a b, lt b a = false.

#[global] Instance not_after_dec {A} (lt : A → A → bool) a b :
  Decision (not_after lt a b).
Proof. unfold not_after. apply _. Defined.

(** [std::sort(first, last)] with comparison [lt].  The standard fixes the
    result up to the order of equivalent elements; a merge sort is one
    such result. *)
Definition std_sort {A} (lt : A → A → bool) (l : list A) : list A :=
  merge_sort (not_after lt) l.

(** The entry [{-static_cast<int>(adj_list_[i].size()), i}]. *)
Definition degree_entry (g : Graph) (i : Z) : option (Z * Z) :=
  s ← adj_at g i; Some (- Z.of_nat (size s), i).

Definition get_vertices_sorted_by_degree (g : Graph) : option (list Z) :=
  degrees ← mapM (degree_entry g) (seqZ 0 (num_vertices_ g));
  Some ((std_sort pair_lt degrees).*2).

(** [u] comes before [v] in the degree ordering: larger degree first,
    equal degrees by ascending vertex number. *)
Definition degree_before (g : Graph) (u v : Z) : Prop :=
  get_degree g v < get_degree g u ∨
  (get_degree g u = get_degree g v ∧ u < v).

Definition sorted_by_degree (g : Graph) (order : list Z) : Prop :=
  ∀ (i j : nat) u v, (i < j)%nat →
    order !! i = Some u → order !! j = Some v → degree_before g u v.

(** ** Neighbourhood-restricted trials *)

(** [v[i]] on a vector, unchecked. *)
Definition vec_at {A} (v : list A) (i : Z) : option A :=
  if decide (0 ≤ i) then v !! Z.to_nat i else None.

(** [dataset_taskflow_greedy_weight_neighborhood.cc]: the body of one
    trial.  The random engine and the [double] scores are kept abstract:
    [Gen] is the state of the thread's engine, [noise_dist] one draw of
    the noise distribution, [Real] the type of the scores with its
    conversion from [int], its addition and its [operator<]. *)
Module weight_neighborhood.
Section trial.
Context {Gen Real : Type}.
Context (noise_dist : Gen → Real * Gen).
Context (of_int : Z → Real) (real_add : Real → Real → Real).
Context (real_lt : Real → Real → bool).

(** [global_degrees[i] = graph.get_degree(i)] for every vertex. *)
Definition global_degrees (g : Graph) : list Z :=
  get_degree g <$> seqZ 0 (get_num_vertices g).

(** [operator<] of [std::pair<double,int>]. *)
Definition scored_lt (p q : Real * Z) : bool :=
  real_lt p.1 q.1 || (negb (real_lt q.1 p.1) && (p.2 <? q.2)).

(** The loop that pushes [{global_degrees[u] + noise_dist(gen), u}]
    for each neighbour [u]. *)
Fixpoint weigh (degrees : list Z) (neighbors : list Z) (gen : Gen)
  : option (list (Real * Z) * Gen) :=
  match neighbors with
  | [] => Some ([], gen)
  | u :: rest =>
      match vec_at degrees u with
      | Some d =>
          let (noise, gen1) := noise_dist gen in
          match weigh degrees rest gen1 with
          | Some (tail, gen2) =>
              Some ((real_add (of_int d) noise, u) :: tail, gen2)
          | None => None
          end
      | None => None
      end
  end.

(** [std::sort(c.rbegin(), c.rend())]: the reversed range is sorted
    upwards, so the vector ends up in descending order. *)
Definition sort_descending (c : list (Real * Z)) : list (Real * Z) :=
  reverse (std_sort scored_lt (reverse c)).

(** The trial, from the seed vertex drawn by [dist_v(gen)] and the
    engine state after that draw, up to
    [local_clique.push_back(seed_vertex)]. *)
Definition trial (g : Graph) (degrees : list Z) (seed_vertex : Z)
    (gen : Gen) : option (list Z * Gen) :=
  let neighbors := get_neighbors g seed_vertex in
  match weigh degrees neighbors gen with
  | Some (weighted_candidates, gen') =>
      let search_order := (sort_descending weighted_candidates).*2 in
      match find_greedy_max_clique g search_order with
      | Some local_clique => Some (local_clique ++ [seed_vertex], gen')
      | None => None
      end
  | None => None
  end.
End trial.
End weight_neighborhood.

(** [max_clique_random_neighborhood.cc]: the greedy extender sorts its
    candidates by degree itself. *)
Module random_neighborhood.
(** The candidate [a] with [adj_list_[a].size()], the key of the
    comparison [adj_list_[a].size() > adj_list_[b].size()]. *)
Definition sized (g : Graph) (a : Z) : option (Z * Z) :=
  s ← adj_at g a; Some (Z.of_nat (size s), a).

Definition larger_first (p q : Z * Z) : bool := q.1 <? p.1.

Definition find_greedy_clique_in_subset (g : Graph) (candidates : list Z)
  : option (list Z) :=
  keyed ← mapM (sized g) candidates;
  greedy_loop g (std_sort larger_first keyed).*2 [].

(** The trial, from the seed vertex drawn by [dist(gen)]. *)
Definition trial (g : Graph) (seed_vertex : Z) : option (list Z) :=
  let subgraph_nodes := get_neighbors g seed_vertex in
  local_clique ← find_greedy_clique_in_subset g subgraph_nodes;
  Some (local_clique ++ [seed_vertex]).
End random_neighborhood.

(** What the specification asks of the clique of a trial seeded at
    [seed]. *)
Definition seeded_clique (g : Graph) (seed : Z) (clique : list Z) : Prop :=
  seed ∈ clique ∧
  (∀ m, m ∈ clique → m ≠ seed → m ∈ get_neighbors g seed) ∧
  pairwise_adjacent g clique ∧
  ∃ local_clique, clique = local_clique ++ [seed] ∧
                  ∀ m, m ∈ local_clique → m ∈ get_neighbors g seed.

(** ** The best-clique holder *)

(** [dataset_taskflow_greedy.cc]: every trial ends with
    [lock_guard lock(mtx); if (current_clique.size() > best_clique.size())
    best_clique = std::move(current_clique);].  The lock makes the update
    one atomic step, so a run is the updates taken in the order in which
    the trials get the lock. *)
Definition offer_locked (best_clique current_clique : list Z) : list Z :=
  if (length best_clique <? length current_clique)%nat
  then current_clique else best_clique.

Definition run_locked (completion : list (list Z)) : list Z :=
  foldl offer_locked [] completion.

(** [dataset_taskflow_greedy_weight_neighborhood.cc]: the holder is the
    clique, guarded by the mutex, and the atomic [max_size].  [stored]
    is not in the program: it records every value [max_size] has held, the
    values a relaxed load may return. *)
Record holder := mkHolder {
  best_clique : list Z;
  max_size : nat;
  stored : list nat
}.

(** [best_clique] empty, [max_size(0)]. *)
Definition holder_init : holder := mkHolder [] 0 [0%nat].

(** The update with [seen] the value returned by
    [max_size.load(memory_order_relaxed)]: the lock is taken only when
    the candidate is larger than [seen], and the sizes are compared again
    under the lock. *)
Definition offer_checked (seen : nat) (local_clique : list Z) (h : holder)
  : holder :=
  if (seen <? length local_clique)%nat then
    if (length (best_clique h) <? length local_clique)%nat then
      mkHolder local_clique (length local_clique)
               (length local_clique :: stored h)
    else h
  else h.

(** One trial offers its clique: the load returns a value that
    [max_size] holds or has held. *)
Inductive offer_step : holder → list Z → holder → Prop :=
  | offer_step_seen h local_clique seen :
      seen ∈ stored h →
      offer_step h local_clique (offer_checked seen local_clique h).

(** The trials offer their cliques in the order [completion]. *)
Inductive run_checked : holder → list (list Z) → holder → Prop :=
  | run_checked_nil h : run_checked h [] h
  | run_checked_cons h1 h2 h3 c completion :
      offer_step h1 c h2 → run_checked h2 completion h3 →
      run_checked h1 (c :: completion) h3.

(** The largest size among the cliques of the trials. *)
Definition largest_size (outputs : list (list Z)) : nat :=
  max_list_with length outputs.

(** The holder agrees with its atomic copy of the size, which has never
    been larger. *)
Definition holder_inv (h : holder) : Prop :=
  max_size h = length (best_clique h) ∧
  Forall (λ n, (n ≤ length (best_clique h))%nat) (stored h).

(** Three trial cliques of scenario A and one order of completion. *)
Definition sample_outputs : list (list Z) := [[3]; [2; 0; 1]; [2; 0]].
Definition sample_completion : list (list Z) := [[2; 0]; [3]; [2; 0; 1]].

(** ** What a call can do besides returning a value *)

(** A call returns, possibly after writing lines to [std::cerr]; or it
    ends the process with [exit(status)]; or it throws; or it runs into
    undefined behaviour. *)
Inductive outcome (A : Type) : Type :=
  | Returned (value : A) (cerr : list string)
  | Exited (status : Z) (cerr : list string)
  | Threw (what : string)
  | Undefined.
Arguments Returned {A} value cerr.
Arguments Exited {A} status cerr.
Arguments Threw {A} what.
Arguments Undefined {A}.

(** A call that reports an error: it does not return, or it returns
    after writing a diagnostic. *)
Definition reports_error {A} (o : outcome A) : Prop :=
  match o with
  | Returned _ cerr => cerr ≠ []
  | Exited _ _ | Threw _ => True
  | Undefined => False
  end.

(** A call that fails: it does not return a value. *)
Definition fails {A} (o : outcome A) : Prop :=
  match o with
  | Returned _ _ => False
  | Exited _ _ | Threw _ => True
  | Undefined => False
  end.

(** The bodies of [get_neighbors], [get_degree] and the guarded
    [add_edge] contain no [throw], no [exit] and no output: they
    return. *)
Definition call_get_neighbors (g : Graph) (u : Z) : outcome (list Z) :=
  Returned (get_neighbors g u) [].

Definition call_get_degree (g : Graph) (u : Z) : outcome Z :=
  Returned (get_degree g u) [].

Definition call_add_edge (g : Graph) (u v : Z) : outcome Graph :=
  Returned (add_edge g u v) [].

(** ** Formatted input from a line ([std::stringstream]) *)

(** [std::isspace] and [std::isdigit] in the C locale. *)
Definition is_space (c : ascii) : bool :=
  let n := N_of_ascii c in ((n =? 32) || ((9 <=? n) && (n <=? 13)))%N.

Definition is_digit (c : ascii) : bool :=
  let n := N_of_ascii c in ((48 <=? n) && (n <=? 57))%N.

Definition digit_value (c : ascii) : Z := Z.of_N (N_of_ascii c) - 48.

Definition INT_MAX : Z := 2147483647.
Definition INT_MIN : Z := -2147483648.

(** The characters not yet read and the fail bit. *)
Record istream := mkStream {
  unread : list ascii;
  failbit : bool
}.

Definition stream_of (line : string) : istream :=
  mkStream (list_ascii_of_string line) false.

Definition failed_stream : istream := mkStream [] true.

Fixpoint skip_ws (l : list ascii) : list ascii :=
  match l with
  | [] => []
  | c :: rest => if is_space c then skip_ws rest else l
  end.

(** The longest prefix of characters that satisfy [p], and the rest. *)
Fixpoint span (p : ascii → bool) (l : list ascii) : list ascii * list ascii :=
  match l with
  | [] => ([], [])
  | c :: rest =>
      if p c then let (tok, tail) := span p rest in (c :: tok, tail)
      else ([], l)
  end.

(** The sentry of a formatted extraction: nothing is read from a failed
    stream; leading white space is skipped, and reaching the end while
    skipping fails. *)
Definition sentry (s : istream) : option (list ascii) :=
  if failbit s then None
  else match skip_ws (unread s) with
       | [] => None
       | l => Some l
       end.

(** Each extraction returns what it assigns to its target, [None] when
    the target is left as it was, and the stream afterwards. *)

(** [ss >> str] *)
Definition extract_string (s : istream) : option (list ascii) * istream :=
  match sentry s with
  | None => (None, failed_stream)
  | Some l =>
      let (tok, rest) := span (λ c, negb (is_space c)) l in
      (Some tok, mkStream rest false)
  end.

(** [ss >> ch] *)
Definition extract_char (s : istream) : option ascii * istream :=
  match sentry s with
  | Some (c :: rest) => (Some c, mkStream rest false)
  | _ => (None, failed_stream)
  end.

Definition decimal (digits : list ascii) : Z :=
  foldl (λ acc c, 10 * acc + digit_value c) 0 digits.

(** [ss >> n] for an [int]: an optional sign and decimal digits.  With no
    digit the target becomes 0 and the stream fails; a value outside
    [int] becomes the nearest bound and the stream fails. *)
Definition extract_int (s : istream) : option Z * istream :=
  match sentry s with
  | None => (None, failed_stream)
  | Some l =>
      let (negative, l1) :=
        match l with
        | "-"%char :: r => (true, r)
        | "+"%char :: r => (false, r)
        | _ => (false, l)
        end in
      let (digits, rest) := span is_digit l1 in
      match digits with
      | [] => (Some 0, failed_stream)
      | _ =>
          let n := if negative then - decimal digits else decimal digits in
          if INT_MAX <? n then (Some INT_MAX, failed_stream)
          else if n <? INT_MIN then (Some INT_MIN, failed_stream)
          else (Some n, mkStream rest false)
      end
  end.

(** ** The DIMACS loader ([load_dimacs_graph]) *)

Definition first_char (line : string) : option ascii :=
  match line with
  | EmptyString => None
  | String c _ => Some c
  end.

Definition starts_with (c : ascii) (line : string) : bool :=
  bool_decide (first_char line = Some c).

(** [ss >> temp >> format >> num_vertices] on a header line;
    [num_vertices] was 0.  (The edge count read after it only feeds a
    message on [std::cout].) *)
Definition parse_header (line : string) : Z :=
  let s1 := (extract_string (stream_of line)).2 in
  let s2 := (extract_string s1).2 in
  default 0 (extract_int s2).1.

(** The first loop: empty lines and comment lines are skipped, the first
    line that starts with [p] is parsed and ends the loop; any other line
    is passed over.  Returns [num_vertices] and the lines not yet read. *)
Fixpoint find_header (lines : list string) : Z * list string :=
  match lines with
  | [] => (0, [])
  | line :: rest =>
      if starts_with "p" line then (parse_header line, rest)
      else find_header rest
  end.

(** [if (u > 0) u--;] *)
Definition to_zero_based (u : Z) : Z := if 0 <? u then u - 1 else u.

(** What one line of the second loop does. *)
Inductive edge_line : Type :=
  | skip_line
  | edge_call (u v : Z)
  | unset_endpoint.

(** A line [e u v] is read without checking the stream, so [u] or [v]
    can be used without having been assigned; a line without the [e] is
    skipped when [temp_ss >> u >> v] fails. *)
Definition parse_edge_line (line : string) : edge_line :=
  if bool_decide (first_char line = None) || starts_with "c" line
  then skip_line
  else if starts_with "e" line then
    let s1 := (extract_char (stream_of line)).2 in
    let (u, s2) := extract_int s1 in
    let (v, _) := extract_int s2 in
    match u, v with
    | Some u, Some v => edge_call (to_zero_based u) (to_zero_based v)
    | _, _ => unset_endpoint
    end
  else
    let (u, s1) := extract_int (stream_of line) in
    let (v, s2) := extract_int s1 in
    if failbit s2 then skip_line
    else match u, v with
         | Some u, Some v => edge_call (to_zero_based u) (to_zero_based v)
         | _, _ => skip_line
         end.

(** The second loop; [None] when an unassigned endpoint is used. *)
Fixpoint read_edges (g : Graph) (lines : list string) : option Graph :=
  match lines with
  | [] => Some g
  | line :: rest =>
      match parse_edge_line line with
      | skip_line => read_edges g rest
      | edge_call u v => read_edges (add_edge g u v) rest
      | unset_endpoint => None
      end
  end.

(** The programs differ in what follows the first loop:
    [if (num_vertices == 0) { std::cerr << ...; exit(1); }]
    ([dataset_taskflow_greedy.cc], [dataset_compare_greedy.cc],
    [dataset_taskflow_greedy_weight.cc] and its [_repeat]);
    [if (num_vertices == 0) exit(1);]
    ([dataset_taskflow_greedy_repeat.cc], the two [max_clique_*]);
    nothing ([dataset_taskflow_greedy_weight_neighborhood.cc] and the two
    [_profiling] programs). *)
Inductive header_check : Type :=
  | check_with_diagnostic
  | check_silent
  | no_check.

Definition invalid_format : string :=
  "Error: Invalid DIMACS format (header 'p edge V E' not found).".

(** The loader on the lines of a file that could be opened. *)
Definition load_dimacs_graph (variant : header_check) (lines : list string)
  : outcome Graph :=
  let (num_vertices, rest) := find_header lines in
  let construct :=
    match Graph_ctor num_vertices with
    | None => Threw "std::length_error"
    | Some g =>
        match read_edges g rest with
        | Some g' => Returned g' []
        | None => Undefined
        end
    end in
  match variant with
  | check_with_diagnostic =>
      if num_vertices =? 0 then Exited 1 [invalid_format] else construct
  | check_silent =>
      if num_vertices =? 0 then Exited 1 [] else construct
  | no_check => construct
  end.

(** The header as the specification words it: a line
    [p <format-tag> <vertex-count> <edge-count>], preceded only by
    comment lines, whose first character is [c]. *)
Fixpoint fields (l : list ascii) (fuel : nat) : list (list ascii) :=
  match fuel with
  | O => []
  | S fuel' =>
      match skip_ws l with
      | [] => []
      | l' => let (tok, rest) := span (λ c, negb (is_space c)) l' in
              tok :: fields rest fuel'
      end
  end.

Definition is_count (tok : list ascii) : bool :=
  negb (bool_decide (tok = [])) && forallb is_digit tok.

Definition spec_header_line (line : string) : bool :=
  match fields (list_ascii_of_string line) (String.length line) with
  | [p; _; n; m] =>
      bool_decide (p = ["p"%char]) && is_count n && is_count m
  | _ => false
  end.

Fixpoint spec_header_ok (lines : list string) : bool :=
  match lines with
  | [] => false
  | line :: rest =>
      if starts_with "c" line then spec_header_ok rest
      else spec_header_line line
  end.

(** Symmetry and absence of self-loops of the adjacency relation. *)
Definition symmetric_adjacency (g : Graph) : Prop :=
  ∀ u v, adjacent g u v ↔ adjacent g v u.

Definition no_self_loop (g : Graph) : Prop :=
  ∀ v, ¬ adjacent g v v.

(** Two small input files: scenario A in DIMACS form, and a file whose
    only edge line names vertex 1 twice. *)
Definition scenario_A_file : list string :=
  ["c scenario A"; "p edge 4 4"; "e 1 2"; "e 1 3"; "e 2 3"; "e 3 4"]%string.

Definition loop_file : list string := ["p edge 2 1"; "e 1 1"]%string.

(** A header line without the format tag, and an edge line after it. *)
Definition untagged_file : list string := ["p 3 2"; "e 1 2"]%string.

(** The first loop ends with vertex count 0: no line starts with [p], or
    the first line that does gives 0 for the count (the third field is
    absent or does not begin with a non-zero number). *)
Definition no_vertex_count (lines : list string) : Prop :=
  Forall (λ line, starts_with "p" line = false) lines ∨
  ∃ before header after,
    lines = before ++ header :: after ∧
    Forall (λ line, starts_with "p" line = false) before ∧
    starts_with "p" header = true ∧
    parse_header header = 0.

(** ** The random-graph generator ([compare_greedy_mel.cc]) *)

(** A [for] loop over the values of [range], from state [s]; the body can
    run into undefined behaviour. *)
Fixpoint for_each {S} (body : Z → S → option S) (range : list Z) (s : S)
  : option S :=
  match range with
  | [] => Some s
  | i :: rest =>
      match body i s with
      | Some s' => for_each body rest s'
      | None => None
      end
  end.

Module greedy_mel.
(** [add_edge] without the range guard: both [adj_list_[u]] and
    [adj_list_[v]] are accessed unchecked. *)
Definition add_edge (g : Graph) (u v : Z) : option Graph :=
  match adj_at g u, adj_at g v with
  | Some _, Some _ =>
      Some (mkGraph (num_vertices_ g)
              (insert_at v u (insert_at u v (adj_list_ g))))
  | _, _ => None
  end.

Section generator.
Context {Gen Real : Type}.
(** [dis(gen)], one draw of the uniform distribution on [0,1), and
    [operator<] on [double]. *)
Context (dis : Gen → Real * Gen) (real_lt : Real → Real → bool).

(** The body of the inner loop:
    [if (dis(gen) < edge_probability) g.add_edge(i, j);] *)
Definition maybe_edge (edge_probability : Real) (i j : Z) (s : Graph * Gen)
  : option (Graph * Gen) :=
  let (x, gen') := dis s.2 in
  if real_lt x edge_probability then
    match add_edge s.1 i j with
    | Some g' => Some (g', gen')
    | None => None
    end
  else Some (s.1, gen').

Definition create_random_graph (num_vertices : Z) (edge_probability : Real)
    (gen : Gen) : outcome (Graph * Gen) :=
  match Graph_ctor num_vertices with
  | None => Threw "std::length_error"
  | Some g =>
      match
        for_each
          (λ i, for_each (maybe_edge edge_probability i)
                  (seqZ (i + 1) (num_vertices - (i + 1))))
          (seqZ 0 num_vertices) (g, gen)
      with
      | Some r => Returned r []
      | None => Undefined
      end
  end.
End generator.
End greedy_mel.

(** What the loops of the generator maintain on the graph: it is a
    constructed graph on [n] vertices without self-loops. *)
Definition generated (n : Z) (g : Graph) : Prop :=
  constructed g ∧ num_vertices_ g = n ∧ no_self_loop g.

(** ** Further notions used by the properties below *)

(** The neighbours that [add_edge(a,b)] inserts for vertex [w]: none
    when the guard fails. *)
Definition new_neighbours (g : Graph) (a b w : Z) : gset Z :=
  if in_range g a && in_range g b then
    (if decide (w = b) then {[a]} else ∅) ∪
    (if decide (w = a) then {[b]} else ∅)
  else ∅.

(** Every member of a clique vector is adjacent to the members before
    it: the order in which the greedy loop tests adjacency. *)
Definition clique_chain (g : Graph) (clique : list Z) : Prop :=
  StronglySorted (λ v u, adjacent g u v) clique.

(** A clique of the graph that no vertex of the graph extends. *)
Definition maximal_clique (g : Graph) (clique : list Z) : Prop :=
  pairwise_adjacent g clique ∧
  ∀ v, in_range g v = true → v ∉ clique →
       ∃ m, m ∈ clique ∧ is_adjacent g v m = Some false.

(** ** The trials over all the vertices *)

(** [dataset_taskflow_greedy.cc], first task of [main]: the greedy
    extender on the degree ordering. *)
Definition degree_order_trial (g : Graph) : option (list Z) :=
  initial_order ← get_vertices_sorted_by_degree g;
  find_greedy_max_clique g initial_order.

(** The other tasks of [main]: [std::iota] from 0 over a vector of
    [get_num_vertices()] entries, [std::shuffle] with the task's own
    engine, then the greedy extender.  [shuffle] stands for
    [std::shuffle] on an engine in state [gen]. *)
Definition shuffle_trial {Gen : Type} (shuffle : list Z → Gen → list Z * Gen)
    (g : Graph) (gen : Gen) : option (list Z) :=
  let vertices := seqZ 0 (get_num_vertices g) in
  find_greedy_max_clique g (shuffle vertices gen).1.

(** [dataset_compare_greedy.cc] and [compare_greedy_mel.cc]:
    [find_greedy_max_clique()] without argument sorts by degree itself,
    after an early return on the graph without vertices. *)
Module compare_greedy.
Definition find_greedy_max_clique (g : Graph) : option (list Z) :=
  if num_vertices_ g =? 0 then Some []
  else
    sorted_vertices ← get_vertices_sorted_by_degree g;
    greedy_loop g sorted_vertices [].
End compare_greedy.

(** [dataset_taskflow_greedy_weight.cc]: the tasks sort all the vertices
    by [degrees[v] + noise_dist(t_gen)], largest first; [degrees] is
    filled in [main] with [get_degree(i)] for every vertex. *)
Module greedy_weight.
Section trial.
Context {Gen Real : Type}.
Context (noise_dist : Gen → Real * Gen).
Context (of_int : Z → Real) (real_add : Real → Real → Real).
Context (real_lt : Real → Real → bool).

Definition trial (g : Graph) (degrees : list Z) (gen : Gen)
  : option (list Z * Gen) :=
  match
    weight_neighborhood.weigh noise_dist of_int real_add degrees
      (seqZ 0 (Z.of_nat (length degrees))) gen
  with
  | Some (weighted_vertices, gen') =>
      let search_order :=
        (weight_neighborhood.sort_descending real_lt weighted_vertices).*2 in
      match find_greedy_max_clique g search_order with
      | Some current_clique => Some (current_clique, gen')
      | None => None
      end
  | None => None
  end.
End trial.
End greedy_weight.

(** The engine after [k] draws of [draw]. *)
Definition after_draws {Gen A : Type} (draw : Gen → A * Gen) (k : nat)
    (gen : Gen) : Gen :=
  Nat.iter k (λ s, (draw s).2) gen.

(** ** Lines of a DIMACS file *)

(** The lines that both loops of the loader pass over: the empty line
    and the comment line. *)
Definition ignored_line (line : string) : bool :=
  bool_decide (first_char line = None) || starts_with "c" line.

(** What the second loop does with one line that assigns both
    endpoints. *)
Definition apply_edge_line (g : Graph) (line : string) : Graph :=
  match parse_edge_line line with
  | edge_call u v => add_edge g u v
  | _ => g
  end.

(** ** Formatted output of an [int] *)

(** [os << n] for an [int]: the decimal digits, after a [-] for a
    negative number.  (The programs print vertex numbers this way, on
    [std::cout] and in the adjacency dump.) *)
Definition print_int (n : Z) : list ascii :=
  list_ascii_of_string (pretty n).

(** A character sequence that does not continue a number: it is empty
    or starts with a character that is not a digit. *)
Definition ends_number (rest : list ascii) : Prop :=
  match rest with
  | [] => True
  | c :: _ => is_digit c = false
  end.

(** A DIMACS edge line and header line written out: the letter, and
    the fields in decimal, separated by one blank. *)
Definition dimacs_edge_line (a b : Z) : string :=
  string_of_list_ascii
    ("e"%char :: " "%char :: print_int a ++ " "%char :: print_int b).

Definition dimacs_header_line (tag : list ascii) (n m : Z) : string :=
  string_of_list_ascii
    ("p"%char :: " "%char :: tag ++
     " "%char :: print_int n ++ " "%char :: print_int m).

(** A graph on [n] vertices with the edges [edges], between 0-based
    vertices, written as a DIMACS file: the header line, then one edge
    line per edge with 1-based numbers. *)
Definition write_dimacs (n : Z) (edges : list (Z * Z)) : list string :=
  dimacs_header_line ["e"; "d"; "g"; "e"]%char n (Z.of_nat (length edges)) ::
  ((λ e, dimacs_edge_line (e.1 + 1) (e.2 + 1)) <$> edges).

(** [Graph g(n)] followed by [g.add_edge(u, v)] for each edge, in order. *)
Definition graph_of_edges (n : Z) (edges : list (Z * Z)) : Graph :=
  foldl (λ g e, add_edge g e.1 e.2)
        (mkGraph n (replicate (Z.to_nat n) ∅)) edges.

(** ** The draws of the generator *)

(** The value of draw number [k] (from 0) of an engine started in state
    [gen]. *)
Definition nth_draw {Gen A : Type} (draw : Gen → A * Gen) (k : nat)
    (gen : Gen) : A :=
  (draw (after_draws draw k gen)).1.

(** The number of pairs [(i,j)], [i < j < n], with [i < a]: the pairs the
    loops of the generator visit before row [a]. *)
Fixpoint row_start (n : Z) (a : nat) : nat :=
  match a with
  | O => O
  | S a' => (row_start n a' + Z.to_nat (n - Z.of_nat a' - 1))%nat
  end.

(** The number of pairs visited before the pair [(u,v)], [u < v]. *)
Definition pair_index (n u v : Z) : nat :=
  (row_start n (Z.to_nat u) + Z.to_nat (v - u - 1))%nat.

(** The state of the generator on entering the iteration [(i,j)] of its
    loops: the pairs before [(i,j)] have been decided, each by its own
    draw. *)
Definition generator_state {Gen Real : Type} (dis : Gen → Real * Gen)
    (real_lt : Real → Real → bool) (p : Real) (n : Z) (gen0 : Gen)
    (i j : Z) (s : Graph * Gen) : Prop :=
  generated n s.1 ∧
  s.2 = after_draws dis (pair_index n i j) gen0 ∧
  ∀ u v, u < v →
    (adjacent s.1 u v ↔
     0 ≤ u ∧ v < n ∧ (u < i ∨ (u = i ∧ v < j)) ∧
     real_lt (nth_draw dis (pair_index n u v) gen0) p = true).

(** ** The result of a run and its output *)

(** [dataset_taskflow_greedy.cc], [main]: the cliques of the trials of
    one run, the degree-ordered trial first, then one shuffled trial per
    engine of [gens] (each task seeds an engine of its own). *)
Definition search_outputs {Gen : Type}
    (shuffle : list Z → Gen → list Z * Gen) (g : Graph) (gens : list Gen)
  : option (list (list Z)) :=
  mapM id (degree_order_trial g :: (shuffle_trial shuffle g <$> gens)).

(** The end of [main]: [std::sort(best_clique.begin(), best_clique.end())]
    and the numbers printed, [best_clique[i] + 1]. *)
Definition clique_numbers (best_clique : list Z) : list Z :=
  (λ v, v + 1) <$> std_sort Z.ltb best_clique.

(** [dataset_compare_greedy.cc] prints the first 20 of them, and
    ["..."] when there are more. *)
Definition clique_preview (max_clique : list Z) : list Z * bool :=
  (take 20 (clique_numbers max_clique),
   bool_decide (20 < length max_clique)%nat).

(** ** The hash-map graph of [old_mycode/test12.cc] and [test13.cc] *)

(** There the adjacency structure is a
    [std::unordered_map<int, std::unordered_set<int>>]: [add_edge] has no
    range guard and creates the entries it needs, [is_adjacent] tests for
    the key first, so both are defined for every [int]. *)
Module hash_graph.
Record Graph := mkGraph {
  num_vertices_ : Z;
  adj_list_ : gmap Z (gset Z)
}.

(** [Graph(int vertices) : num_vertices_(vertices) {}] *)
Definition Graph_ctor (vertices : Z) : Graph := mkGraph vertices ∅.

(** [adj_list_[u].insert(v)]: [operator[]] makes an empty set for a new
    key. *)
Definition insert_at (u v : Z) (adj : gmap Z (gset Z)) : gmap Z (gset Z) :=
  <[u := {[v]} ∪ default ∅ (adj !! u)]> adj.

Definition add_edge (g : Graph) (u v : Z) : Graph :=
  mkGraph (num_vertices_ g) (insert_at v u (insert_at u v (adj_list_ g))).

(** [adj_list_.count(u) && adj_list_.at(u).count(v)] *)
Definition is_adjacent (g : Graph) (u v : Z) : bool :=
  match adj_list_ g !! u with
  | Some s => bool_decide (v ∈ s)
  | None => false
  end.

(** [adj_list_.count(i) ? adj_list_.at(i).size() : 0] *)
Definition degree (g : Graph) (i : Z) : Z :=
  match adj_list_ g !! i with
  | Some s => Z.of_nat (size s)
  | None => 0
  end.

Definition get_vertices_sorted_by_degree (g : Graph) : list Z :=
  let degrees := (λ i, (- degree g i, i)) <$> seqZ 0 (num_vertices_ g) in
  (std_sort pair_lt degrees).*2.

Fixpoint can_add (g : Graph) (u : Z) (clique : list Z) : bool :=
  match clique with
  | [] => true
  | v :: rest => if is_adjacent g u v then can_add g u rest else false
  end.

Fixpoint greedy_loop (g : Graph) (vertex_order clique : list Z) : list Z :=
  match vertex_order with
  | [] => clique
  | u :: rest =>
      greedy_loop g rest (if can_add g u clique then clique ++ [u] else clique)
  end.

Definition find_greedy_max_clique (g : Graph) (vertex_order : list Z)
  : list Z :=
  greedy_loop g vertex_order [].

(** [Graph g(n)] followed by [g.add_edge(u, v)] for each edge, in order. *)
Definition graph_of_edges (n : Z) (edges : list (Z * Z)) : Graph :=
  foldl (λ g e, add_edge g e.1 e.2) (Graph_ctor n) edges.
End hash_graph.

(** The hash-map graph [h] holds the same neighbours as the vector graph
    [g] for every vertex of [g]. *)
Definition same_adjacency (h : hash_graph.Graph) (g : Graph) : Prop :=
  hash_graph.num_vertices_ h = num_vertices_ g ∧
  ∀ u, in_range g u = true →
       adj_at g u = Some (default ∅ (hash_graph.adj_list_ h !! u)).
(** * Properties *)

(** ** Constructed graphs are well formed *)

Lemma in_range_spec g u : in_range g u = true ↔ 0 ≤ u < num_vertices_ g.
Proof. unfold in_range. rewrite andb_true_iff, Z.leb_le, Z.ltb_lt. done. Qed.

Lemma adj_at_Some g u s : adj_at g u = Some s → 0 ≤ u.
Proof. unfold adj_at. case_decide; [done|discriminate]. Qed.

Lemma adj_at_in_range g u :
  length (adj_list_ g) = Z.to_nat (num_vertices_ g) →
  in_range g u = true → is_Some (adj_at g u).
Proof.
  intros Hlen [H0 H1]%in_range_spec. unfold adj_at.
  rewrite decide_True by done. apply lookup_lt_is_Some. lia.
Qed.

Lemma adj_at_insert_at n adj u v w :
  0 ≤ u → 0 ≤ w →
  adj_at (mkGraph n (insert_at u v adj)) w =
  (λ s, if decide (w = u) then {[v]} ∪ s else s) <$> adj_at (mkGraph n adj) w.
Proof.
  intros Hu Hw. unfold adj_at, insert_at. simpl.
  rewrite !decide_True by done.
  destruct (decide (w = u)) as [->|Hne].
  - rewrite list_lookup_alter_eq. by destruct (adj !! Z.to_nat u).
  - rewrite list_lookup_alter_ne by lia. by destruct (adj !! Z.to_nat w).
Qed.

Lemma adj_at_add_edge g u v w :
  in_range g u = true → in_range g v = true →
  adj_at (add_edge g u v) w =
  (λ s, (if decide (w = v) then {[u]} else ∅) ∪
        (if decide (w = u) then {[v]} else ∅) ∪ s) <$> adj_at g w.
Proof.
  intros Hu Hv. unfold add_edge. rewrite Hu, Hv. simpl.
  apply in_range_spec in Hu, Hv.
  destruct (decide (0 ≤ w)) as [Hw|Hw].
  - rewrite adj_at_insert_at, adj_at_insert_at by lia.
    destruct g as [n adj]; simpl. destruct (adj_at _ w); simpl; [|done].
    f_equal. clear. destruct (decide (w = v)), (decide (w = u)); set_solver.
  - unfold adj_at. destruct (decide (0 ≤ w)); [lia|done].
Qed.

Lemma in_range_add_edge g u v w : in_range (add_edge g u v) w = in_range g w.
Proof. unfold add_edge. by destruct (in_range g u && in_range g v). Qed.

Lemma Graph_ctor_wf n g : Graph_ctor n = Some g → Graph_wf g.
Proof.
  unfold Graph_ctor. case_decide as Hn; [|discriminate]. intros [= <-].
  assert (∀ u s, adj_at (mkGraph n (replicate (Z.to_nat n) ∅)) u = Some s →
                 s = ∅) as Hemp.
  { intros u s. unfold adj_at; simpl. case_decide; [|discriminate].
    by intros [-> _]%lookup_replicate_1. }
  split; simpl.
  - done.
  - by rewrite length_replicate.
  - intros u s v Hs Hv. apply Hemp in Hs as ->. set_solver.
  - intros u s v Hs Hv. apply Hemp in Hs as ->. set_solver.
Qed.

Lemma add_edge_wf g u v : Graph_wf g → Graph_wf (add_edge g u v).
Proof.
  intros [Hn Hlen Hmem Hsym].
  destruct (in_range g u && in_range g v) eqn:Hguard;
    [|unfold add_edge; rewrite Hguard; by split].
  apply andb_true_iff in Hguard as [Hu Hv].
  split.
  - unfold add_edge. by rewrite Hu, Hv.
  - unfold add_edge, insert_at. rewrite Hu, Hv. simpl.
    by rewrite !length_alter.
  - intros w s x. rewrite in_range_add_edge, adj_at_add_edge by done.
    destruct (adj_at g w) as [s0|] eqn:Hw; simpl; [|discriminate].
    intros [= <-]. rewrite !elem_of_union.
    intros [[Hx|Hx]|Hx]; [| |by eapply Hmem].
    + case_decide; set_solver.
    + case_decide; set_solver.
  - intros w s x. rewrite adj_at_add_edge by done.
    destruct (adj_at g w) as [s0|] eqn:Hw; simpl; [|discriminate].
    intros [= <-]. rewrite !elem_of_union. intros Hx.
    assert (is_Some (adj_at g x)) as [sx Hsx].
    { apply adj_at_in_range; [done|].
      destruct Hx as [[Hx|Hx]|Hx]; [| |by eapply Hmem].
      - case_decide; [|set_solver]. by apply elem_of_singleton in Hx as ->.
      - case_decide; [|set_solver]. by apply elem_of_singleton in Hx as ->. }
    rewrite adj_at_add_edge, Hsx by done. simpl.
    eexists; split; [done|]. rewrite !elem_of_union.
    destruct Hx as [[Hx|Hx]|Hx].
    + case_decide; [|set_solver]. apply elem_of_singleton in Hx as ->.
      subst w. left. right. rewrite decide_True by done. set_solver.
    + case_decide; [|set_solver]. apply elem_of_singleton in Hx as ->.
      subst w. left. left. rewrite decide_True by done. set_solver.
    + destruct (Hsym _ _ _ Hw Hx) as (s' & Hs' & Hin).
      rewrite Hsx in Hs'. injection Hs' as ->. by right.
Qed.

Lemma constructed_wf g : constructed g → Graph_wf g.
Proof.
  induction 1 as [n g Hg|g u v _ IH].
  - by eapply Graph_ctor_wf.
  - by apply add_edge_wf.
Qed.

Lemma adjacent_iff g u v :
  adjacent g u v ↔ ∃ s, adj_at g u = Some s ∧ v ∈ s.
Proof.
  unfold adjacent, is_adjacent. destruct (adj_at g u) as [s|]; simpl.
  - split.
    + intros [= H%bool_decide_eq_true]. eauto.
    + intros (s' & [= <-] & Hv). by rewrite bool_decide_eq_true_2.
  - split; [discriminate|]. by intros (? & ? & _).
Qed.

Lemma adjacent_sym g u v : Graph_wf g → adjacent g u v → adjacent g v u.
Proof.
  intros Hwf (s & Hs & Hv)%adjacent_iff. apply adjacent_iff.
  by eapply wf_sym.
Qed.

Lemma is_adjacent_defined g u v :
  Graph_wf g → in_range g u = true → is_Some (is_adjacent g u v).
Proof.
  intros Hwf Hu. unfold is_adjacent.
  destruct (adj_at_in_range g u (wf_length _ Hwf) Hu) as [s ->]. by eexists.
Qed.

(** ** The greedy extender *)

Section greedy.
Context (g : Graph) (Hwf : Graph_wf g).

Lemma can_add_defined u clique :
  in_range g u = true → is_Some (can_add g u clique).
Proof.
  intros Hu. induction clique as [|v rest IH]; simpl; [by eexists|].
  destruct (is_adjacent_defined g u v Hwf Hu) as [[] ->]; [done|by eexists].
Qed.

Lemma can_add_true u clique :
  can_add g u clique = Some true ↔ Forall (adjacent g u) clique.
Proof.
  induction clique as [|v rest IH]; simpl.
  - split; [constructor|done].
  - rewrite Forall_cons. unfold adjacent at 1.
    destruct (is_adjacent g u v) as [[]|]; [|split; [done|]..].
    + rewrite IH. tauto.
    + by intros [[=] _].
    + by intros [[=] _].
Qed.

Lemma can_add_false u clique :
  can_add g u clique = Some false →
  ∃ v, v ∈ clique ∧ is_adjacent g u v = Some false.
Proof.
  induction clique as [|v rest IH]; simpl; [done|].
  destruct (is_adjacent g u v) as [[]|] eqn:Huv; [|  |done].
  - intros (w & Hw & Hadj)%IH. exists w. split; [by right|done].
  - intros _. exists v. split; [by left|done].
Qed.

(** One iteration of the outer loop on an in-range vertex. *)
Lemma greedy_loop_step u rest clique :
  in_range g u = true →
  greedy_loop g (u :: rest) clique =
  greedy_loop g rest
    (if decide (Forall (adjacent g u) clique) then clique ++ [u] else clique).
Proof.
  intros Hu. simpl.
  destruct (can_add_defined u clique Hu) as [b Hb]. rewrite Hb.
  destruct b.
  - apply can_add_true in Hb. by rewrite decide_True.
  - rewrite decide_False; [done|].
    intros Hall%can_add_true. congruence.
Qed.

Lemma greedy_loop_app l1 l2 clique :
  greedy_loop g (l1 ++ l2) clique =
  greedy_loop g l1 clique ≫= greedy_loop g l2.
Proof.
  revert clique. induction l1 as [|u l1 IH]; intros clique; simpl; [done|].
  destruct (can_add g u clique) as [[]|]; by rewrite ?IH.
Qed.

Lemma greedy_inv_nil : greedy_inv g [].
Proof.
  split; [constructor|]. intros u v Hu. by apply elem_of_nil in Hu.
Qed.

Lemma greedy_inv_snoc u clique :
  in_range g u = true → Forall (adjacent g u) clique →
  greedy_inv g clique → greedy_inv g (clique ++ [u]).
Proof.
  intros Hu Hall [Hrange Hadj]. split.
  - apply Forall_app. split; [done|]. by constructor.
  - rewrite Forall_forall in Hall.
    intros a b [Ha| ->%list_elem_of_singleton]%elem_of_app
               [Hb| ->%list_elem_of_singleton]%elem_of_app Hne.
    + by apply Hadj.
    + apply (adjacent_sym g u a Hwf). by apply Hall.
    + by apply Hall.
    + done.
Qed.

Lemma greedy_loop_total vertex_order clique :
  all_in_range g vertex_order → greedy_inv g clique →
  ∃ clique', greedy_loop g vertex_order clique = Some clique' ∧
             greedy_inv g clique' ∧ clique `prefix_of` clique' ∧
             (∀ u, u ∈ vertex_order → u ∉ clique' →
                   ∃ v, v ∈ clique' ∧ is_adjacent g u v = Some false).
Proof.
  intros Hord. revert clique.
  induction Hord as [|u rest Hu Hrest IH]; intros clique Hinv.
  - exists clique. split_and!; [done..|]. intros u Hu. by apply elem_of_nil in Hu.
  - simpl. destruct (can_add_defined u clique Hu) as [b Hb]. rewrite Hb.
    destruct b.
    + destruct (IH (clique ++ [u])) as (c' & Hrun & Hinv' & Hpre & Hmax).
      { apply greedy_inv_snoc; [done| |done]. by apply can_add_true. }
      exists c'. split_and!; [done..| |].
      * etrans; [|done]. by apply prefix_app_r.
      * intros w [->|Hw]%elem_of_cons Hnot; [|by apply Hmax].
        exfalso. apply Hnot. destruct Hpre as [k ->].
        rewrite !elem_of_app, list_elem_of_singleton. auto.
    + destruct (IH clique Hinv) as (c' & Hrun & Hinv' & Hpre & Hmax).
      exists c'. split_and!; [done..|].
      intros w [->|Hw]%elem_of_cons Hnot; [|by apply Hmax].
      destruct (can_add_false _ _ Hb) as (v & Hv & Hadj).
      exists v. split; [|done]. destruct Hpre as [k ->].
      apply elem_of_app. by left.
Qed.

Lemma greedy_loop_sublist vertex_order clique clique' :
  greedy_loop g vertex_order clique = Some clique' →
  ∃ added, clique' = clique ++ added ∧ added `sublist_of` vertex_order.
Proof.
  revert clique. induction vertex_order as [|u rest IH]; intros clique; simpl.
  - intros [= <-]. exists []. by rewrite app_nil_r.
  - destruct (can_add g u clique) as [[]|]; [| |done].
    + intros (added & -> & Hsub)%IH. exists (u :: added).
      rewrite <- app_assoc. split; [done|]. by apply sublist_skip.
    + intros (added & -> & Hsub)%IH. exists added.
      split; [done|]. by apply sublist_cons.
Qed.
End greedy.

(** C1.  On a constructed graph and an ordering of in-range vertices, the
    greedy extender returns a clique, and that clique and the clique held
    after any number [k] of iterations of the scan are pairwise adjacent:
    distinct members [u], [v] satisfy [is_adjacent u v]. *)
Theorem greedy_pairwise_adjacent (g : Graph) (vertex_order : list Z) :
  constructed g → all_in_range g vertex_order →
  (∃ clique, find_greedy_max_clique g vertex_order = Some clique ∧
             pairwise_adjacent g clique) ∧
  (∀ k : nat, ∃ clique_k,
      find_greedy_max_clique g (take k vertex_order) = Some clique_k ∧
      greedy_loop g (drop k vertex_order) clique_k =
        find_greedy_max_clique g vertex_order ∧
      pairwise_adjacent g clique_k).
Proof.
  intros Hwf%constructed_wf Hord. split.
  - destruct (greedy_loop_total g Hwf vertex_order [] Hord (greedy_inv_nil g))
      as (c & Hrun & [_ Hadj] & _).
    by exists c.
  - intros k.
    destruct (greedy_loop_total g Hwf (take k vertex_order) []
                (Forall_take _ _ _ Hord) (greedy_inv_nil g))
      as (c & Hrun & [_ Hadj] & _).
    exists c. split_and!; [done| |done].
    unfold find_greedy_max_clique in *.
    rewrite <- (take_drop k vertex_order) at 2.
    by rewrite greedy_loop_app, Hrun.
Qed.

Lemma greedy_pairwise_adjacent_witness :
  (∃ clique, find_greedy_max_clique scenario_A [2; 0; 1; 3] = Some clique ∧
             pairwise_adjacent scenario_A clique) ∧
  (∀ k : nat, ∃ clique_k,
      find_greedy_max_clique scenario_A (take k [2; 0; 1; 3]) = Some clique_k ∧
      greedy_loop scenario_A (drop k [2; 0; 1; 3]) clique_k =
        find_greedy_max_clique scenario_A [2; 0; 1; 3] ∧
      pairwise_adjacent scenario_A clique_k).
Proof.
  apply (greedy_pairwise_adjacent scenario_A [2; 0; 1; 3]).
  - do 4 apply constructed_add. by apply (constructed_ctor 4).
  - repeat constructor.
Defined.

(** C2.  On a constructed graph and an ordering of in-range vertices the
    extender is one left-to-right scan from the empty clique: the clique
    after [k+1] iterations is the clique after [k] iterations with the
    [k]-th vertex [u] appended exactly when [u] is adjacent to every
    member, and unchanged otherwise; nothing is ever removed (each
    intermediate clique is a prefix of the result, which is a subsequence
    of the ordering).  The result is maximal for the ordering: a vertex of
    the ordering that is not in the result fails [is_adjacent] against
    some member of the result. *)
Theorem greedy_single_scan_maximal (g : Graph) (vertex_order : list Z) :
  constructed g → all_in_range g vertex_order →
  ∃ clique,
    find_greedy_max_clique g vertex_order = Some clique ∧
    find_greedy_max_clique g [] = Some [] ∧
    clique `sublist_of` vertex_order ∧
    (∀ (k : nat) u, vertex_order !! k = Some u →
       ∃ clique_k,
         find_greedy_max_clique g (take k vertex_order) = Some clique_k ∧
         find_greedy_max_clique g (take (S k) vertex_order) =
           Some (if decide (Forall (adjacent g u) clique_k)
                 then clique_k ++ [u] else clique_k) ∧
         (if decide (Forall (adjacent g u) clique_k)
          then clique_k ++ [u] else clique_k) `prefix_of` clique) ∧
    (∀ u, u ∈ vertex_order → u ∉ clique →
       ∃ v, v ∈ clique ∧ is_adjacent g u v = Some false).
Proof.
  intros Hwf%constructed_wf Hord.
  destruct (greedy_loop_total g Hwf vertex_order [] Hord (greedy_inv_nil g))
    as (c & Hrun & _ & _ & Hmax).
  exists c. split_and!; [done|done| | |done].
  - destruct (greedy_loop_sublist g _ _ _ Hrun) as (added & -> & Hsub). done.
  - intros k u Hk.
    destruct (greedy_loop_total g Hwf (take k vertex_order) []
                (Forall_take _ _ _ Hord) (greedy_inv_nil g))
      as (ck & Hck & _).
    assert (in_range g u = true) as Hu.
    { unfold all_in_range in Hord. rewrite Forall_forall in Hord. apply Hord.
      by eapply list_elem_of_lookup_2. }
    assert (find_greedy_max_clique g (take (S k) vertex_order) =
            Some (if decide (Forall (adjacent g u) ck)
                  then ck ++ [u] else ck)) as Hstep.
    { unfold find_greedy_max_clique in *.
      rewrite (take_S_r _ _ _ Hk), greedy_loop_app, Hck.
      change (greedy_loop g [u] ck =
              Some (if decide (Forall (adjacent g u) ck)
                    then ck ++ [u] else ck)).
      by rewrite (greedy_loop_step g Hwf u [] ck Hu). }
    exists ck. split_and!; [done..|].
    unfold find_greedy_max_clique in *.
    assert (vertex_order = take (S k) vertex_order ++ drop (S k) vertex_order)
      as Hsplit by by rewrite take_drop.
    rewrite Hsplit, greedy_loop_app, Hstep in Hrun. simpl in Hrun.
    destruct (greedy_loop_sublist g _ _ _ Hrun) as (added & -> & _).
    by apply prefix_app_r.
Qed.

Lemma greedy_single_scan_maximal_witness :
  ∃ clique,
    find_greedy_max_clique scenario_A [3; 2; 0; 1] = Some clique ∧
    find_greedy_max_clique scenario_A [] = Some [] ∧
    clique `sublist_of` [3; 2; 0; 1] ∧
    (∀ (k : nat) u, [3; 2; 0; 1] !! k = Some u →
       ∃ clique_k,
         find_greedy_max_clique scenario_A (take k [3; 2; 0; 1])
           = Some clique_k ∧
         find_greedy_max_clique scenario_A (take (S k) [3; 2; 0; 1]) =
           Some (if decide (Forall (adjacent scenario_A u) clique_k)
                 then clique_k ++ [u] else clique_k) ∧
         (if decide (Forall (adjacent scenario_A u) clique_k)
          then clique_k ++ [u] else clique_k) `prefix_of` clique) ∧
    (∀ u, u ∈ [3; 2; 0; 1] → u ∉ clique →
       ∃ v, v ∈ clique ∧ is_adjacent scenario_A u v = Some false).
Proof.
  apply (greedy_single_scan_maximal scenario_A [3; 2; 0; 1]).
  - do 4 apply constructed_add. by apply (constructed_ctor 4).
  - repeat constructor.
Defined.

(** ** The degree ordering *)

Lemma not_after_pair_lt p q :
  not_after pair_lt p q ↔ p.1 < q.1 ∨ (p.1 = q.1 ∧ p.2 ≤ q.2).
Proof.
  unfold not_after, pair_lt.
  rewrite orb_false_iff, andb_false_iff, negb_false_iff, !Z.ltb_ge, Z.ltb_lt.
  lia.
Qed.

#[local] Instance not_after_pair_lt_total : Total (not_after pair_lt).
Proof. intros p q. rewrite !not_after_pair_lt. lia. Qed.

#[local] Instance not_after_pair_lt_trans : Transitive (not_after pair_lt).
Proof. intros p q r. rewrite !not_after_pair_lt. lia. Qed.

#[local] Instance not_after_pair_lt_antisymm :
  AntiSymm (=) (not_after pair_lt).
Proof.
  intros [a b] [c d]. rewrite !not_after_pair_lt. simpl.
  intros ? ?. f_equal; lia.
Qed.

Lemma StronglySorted_lookup {A} (R : relation A) (l : list A) :
  StronglySorted R l ↔
  ∀ (i j : nat) x y, (i < j)%nat → l !! i = Some x → l !! j = Some y → R x y.
Proof.
  split.
  - induction 1 as [|a l Hl IH Ha]; intros i j x y Hij Hi Hj.
    + by rewrite lookup_nil in Hi.
    + destruct j as [|j]; [lia|]. simpl in Hj. destruct i as [|i].
      * injection Hi as <-. rewrite Forall_forall in Ha.
        apply Ha. by eapply list_elem_of_lookup_2.
      * simpl in Hi. apply (IH i j); [lia|done..].
  - induction l as [|a l IH]; intros Hall; constructor.
    + apply IH. intros i j x y Hij Hi Hj. apply (Hall (S i) (S j)); [lia|done..].
    + apply Forall_forall. intros y [j Hj]%list_elem_of_lookup_1.
      apply (Hall 0%nat (S j)); [lia|done..].
Qed.

Section degree_order.
Context (g : Graph) (Hwf : Graph_wf g).

Lemma degree_entry_in_range i :
  in_range g i = true → degree_entry g i = Some (- get_degree g i, i).
Proof.
  intros Hi. unfold degree_entry, get_degree. rewrite Hi.
  by destruct (adj_at_in_range g i (wf_length _ Hwf) Hi) as [s ->].
Qed.

Lemma degree_entries :
  mapM (degree_entry g) (seqZ 0 (num_vertices_ g)) =
  Some ((λ i, (- get_degree g i, i)) <$> seqZ 0 (num_vertices_ g)).
Proof.
  apply mapM_Some, Forall2_fmap_r, Forall_Forall2_diag, Forall_forall.
  intros i Hi%elem_of_seqZ. apply degree_entry_in_range, in_range_spec. lia.
Qed.

(** The entries of an ordering, and when they are in sorted order. *)
Lemma entries_sorted (order : list Z) :
  NoDup order →
  Sorted (not_after pair_lt) ((λ i, (- get_degree g i, i)) <$> order) ↔
  sorted_by_degree g order.
Proof.
  intros Hnd. split.
  - intros Hs%Sorted_StronglySorted; [|apply _].
    rewrite StronglySorted_lookup in Hs.
    intros i j u v Hij Hi Hj.
    specialize (Hs i j (- get_degree g u, u) (- get_degree g v, v) Hij).
    rewrite !list_lookup_fmap, Hi, Hj in Hs.
    specialize (Hs eq_refl eq_refl). apply not_after_pair_lt in Hs.
    simpl in Hs. unfold degree_before.
    assert (u ≠ v).
    { intros ->. pose proof (NoDup_lookup _ _ _ _ Hnd Hi Hj). lia. }
    lia.
  - intros Hs. apply StronglySorted_Sorted, StronglySorted_lookup.
    intros i j x y Hij. rewrite !list_lookup_fmap.
    destruct (order !! i) as [u|] eqn:Hi; [|done].
    destruct (order !! j) as [v|] eqn:Hj; [|done].
    simpl. intros [= <-] [= <-]. apply not_after_pair_lt. simpl.
    specialize (Hs i j u v Hij Hi Hj). unfold degree_before in Hs. lia.
Qed.

Lemma sorted_entries_fmap (order : list Z) (sorted : list (Z * Z)) :
  sorted ≡ₚ (λ i, (- get_degree g i, i)) <$> order →
  sorted = (λ i, (- get_degree g i, i)) <$> sorted.*2.
Proof.
  intros Hperm. rewrite <- list_fmap_compose.
  rewrite <- (list_fmap_id sorted) at 1. apply Forall_fmap_ext_1, Forall_forall.
  intros [d i] Hin. simpl. rewrite Hperm in Hin.
  apply list_elem_of_fmap in Hin as (k & [= -> ->] & _). done.
Qed.

Lemma get_vertices_sorted_by_degree_spec :
  ∃ order,
    get_vertices_sorted_by_degree g = Some order ∧
    order ≡ₚ seqZ 0 (num_vertices_ g) ∧
    sorted_by_degree g order.
Proof.
  unfold get_vertices_sorted_by_degree. rewrite degree_entries. simpl.
  eexists. split; [done|].
  set (entries := (λ i, (- get_degree g i, i)) <$> seqZ 0 (num_vertices_ g)).
  assert (std_sort pair_lt entries ≡ₚ entries) as Hperm
    by apply merge_sort_Permutation.
  assert ((std_sort pair_lt entries).*2 ≡ₚ seqZ 0 (num_vertices_ g)) as Hp2.
  { rewrite Hperm. unfold entries. rewrite <- list_fmap_compose.
    by rewrite list_fmap_id. }
  split; [done|].
  apply entries_sorted.
  - rewrite Hp2. apply NoDup_seqZ.
  - rewrite <- (sorted_entries_fmap _ _ Hperm).
    apply Sorted_merge_sort, _.
Qed.

Lemma sorted_by_degree_unique order1 order2 :
  NoDup order1 → order1 ≡ₚ order2 →
  sorted_by_degree g order1 → sorted_by_degree g order2 →
  order1 = order2.
Proof.
  intros Hnd Hperm Hs1 Hs2.
  assert (NoDup order2) as Hnd2 by by rewrite <- Hperm.
  apply entries_sorted in Hs1, Hs2; [|done..].
  assert ((λ i, (- get_degree g i, i)) <$> order1 =
          (λ i, (- get_degree g i, i)) <$> order2) as Heq.
  { apply (Sorted_unique (not_after pair_lt)); [done..|].
    by rewrite Hperm. }
  apply (f_equal (fmap snd)) in Heq.
  by rewrite <- !list_fmap_compose, !list_fmap_id in Heq.
Qed.
End degree_order.

(** C5.  On a constructed graph the degree ordering lists every vertex of
    [0,N) once, by non-increasing degree and, among equal degrees, by
    ascending vertex number.  It is a function of the graph alone (no
    random generator is an argument): it is the only ordering of the
    vertices with that property, any constructed graph with the same
    vertex count and the same degrees gets the same ordering, and the
    greedy extender returns a clique on it. *)
Theorem degree_order_sorted_deterministic (g : Graph) :
  constructed g →
  ∃ order,
    get_vertices_sorted_by_degree g = Some order ∧
    order ≡ₚ seqZ 0 (num_vertices_ g) ∧
    sorted_by_degree g order ∧
    (∀ order', order' ≡ₚ seqZ 0 (num_vertices_ g) →
               sorted_by_degree g order' → order' = order) ∧
    (∀ g', constructed g' → num_vertices_ g' = num_vertices_ g →
           (∀ v, get_degree g' v = get_degree g v) →
           get_vertices_sorted_by_degree g' = Some order) ∧
    (∃ clique, find_greedy_max_clique g order = Some clique).
Proof.
  intros Hwf%constructed_wf.
  destruct (get_vertices_sorted_by_degree_spec g Hwf)
    as (order & Hrun & Hperm & Hsorted).
  assert (NoDup order) as Hnd by (rewrite Hperm; apply NoDup_seqZ).
  exists order. split_and!; [done..| | |].
  - intros order' Hperm' Hsorted'. symmetry.
    apply (sorted_by_degree_unique g order order'); [done| |done..].
    by rewrite Hperm, Hperm'.
  - intros g' Hwf'%constructed_wf HN Hdeg.
    destruct (get_vertices_sorted_by_degree_spec g' Hwf')
      as (order' & Hrun' & Hperm' & Hsorted').
    rewrite Hrun'. f_equal.
    apply (sorted_by_degree_unique g order' order).
    + rewrite Hperm'. apply NoDup_seqZ.
    + by rewrite Hperm, Hperm', HN.
    + intros i j u v Hij Hi Hj. specialize (Hsorted' i j u v Hij Hi Hj).
      unfold degree_before in *. by rewrite <- !Hdeg.
    + done.
  - assert (all_in_range g order) as Hord.
    { apply Forall_forall. intros u Hu. rewrite Hperm in Hu.
      apply elem_of_seqZ in Hu. apply in_range_spec. lia. }
    destruct (greedy_loop_total g Hwf order [] Hord (greedy_inv_nil g))
      as (c & Hc & _).
    by exists c.
Qed.

Lemma degree_order_sorted_deterministic_witness :
  ∃ order,
    get_vertices_sorted_by_degree scenario_A = Some order ∧
    order ≡ₚ seqZ 0 (num_vertices_ scenario_A) ∧
    sorted_by_degree scenario_A order ∧
    (∀ order', order' ≡ₚ seqZ 0 (num_vertices_ scenario_A) →
               sorted_by_degree scenario_A order' → order' = order) ∧
    (∀ g', constructed g' → num_vertices_ g' = num_vertices_ scenario_A →
           (∀ v, get_degree g' v = get_degree scenario_A v) →
           get_vertices_sorted_by_degree g' = Some order) ∧
    (∃ clique, find_greedy_max_clique scenario_A order = Some clique).
Proof.
  apply (degree_order_sorted_deterministic scenario_A).
  do 4 apply constructed_add. by apply (constructed_ctor 4).
Defined.

(** C6.  Scenario A: on the graph with vertices 0..3 and edges 0-1, 0-2,
    1-2, 2-3 the degrees are 2, 2, 3, 1, the degree ordering is
    [2,0,1,3], and the greedy extender on it adds 2, then 0, then 1,
    rejects 3 (not adjacent to 0) and returns the clique {0,1,2} of
    size 3. *)
Theorem scenario_A_degree_order_and_clique :
  get_degree scenario_A <$> [0; 1; 2; 3] = [2; 2; 3; 1] ∧
  get_vertices_sorted_by_degree scenario_A = Some [2; 0; 1; 3] ∧
  find_greedy_max_clique scenario_A [2] = Some [2] ∧
  find_greedy_max_clique scenario_A [2; 0] = Some [2; 0] ∧
  find_greedy_max_clique scenario_A [2; 0; 1] = Some [2; 0; 1] ∧
  can_add scenario_A 3 [2; 0; 1] = Some false ∧
  is_adjacent scenario_A 3 0 = Some false ∧
  find_greedy_max_clique scenario_A [2; 0; 1; 3] = Some [2; 0; 1] ∧
  list_to_set [2; 0; 1] = ({[0; 1; 2]} : gset Z) ∧
  length [2; 0; 1] = 3%nat.
Proof. split_and!; by vm_compute. Qed.

(** ** Neighbourhood-restricted trials *)

Section neighbourhood.
Context (g : Graph) (Hwf : Graph_wf g).

Lemma elem_of_get_neighbors seed m :
  m ∈ get_neighbors g seed ↔ in_range g seed = true ∧ adjacent g seed m.
Proof.
  unfold get_neighbors. rewrite adjacent_iff, in_range_spec.
  destruct ((seed <? 0) || (num_vertices_ g <=? seed)) eqn:Hout.
  - apply orb_true_iff in Hout. rewrite Z.ltb_lt, Z.leb_le in Hout.
    rewrite elem_of_nil. split; [done|]. lia.
  - apply orb_false_iff in Hout. rewrite Z.ltb_ge, Z.leb_gt in Hout.
    destruct (adj_at g seed) as [s|].
    + rewrite elem_of_elements. split.
      * intros Hm. split; [lia|]. by exists s.
      * by intros (_ & s' & [= <-] & Hm).
    + rewrite elem_of_nil. split; [done|]. by intros (_ & s' & [=] & _).
Qed.

Lemma get_neighbors_in_range seed m :
  m ∈ get_neighbors g seed → in_range g m = true.
Proof.
  intros (_ & (s & Hs & Hm)%adjacent_iff)%elem_of_get_neighbors.
  by eapply wf_members.
Qed.

Lemma seeded_clique_of_order seed search_order :
  in_range g seed = true →
  (∀ u, u ∈ search_order → u ∈ get_neighbors g seed) →
  ∃ local_clique,
    find_greedy_max_clique g search_order = Some local_clique ∧
    seeded_clique g seed (local_clique ++ [seed]).
Proof.
  intros Hseed Hsub.
  assert (all_in_range g search_order) as Hord.
  { apply Forall_forall. intros u Hu. by eapply get_neighbors_in_range, Hsub. }
  destruct (greedy_loop_total g Hwf search_order [] Hord (greedy_inv_nil g))
    as (local & Hrun & Hinv & _).
  destruct (greedy_loop_sublist g _ _ _ Hrun) as (added & -> & Hadded).
  simpl in *.
  assert (∀ m, m ∈ added → m ∈ get_neighbors g seed) as Hlocal.
  { intros m Hm. apply Hsub. by eapply elem_of_sublist. }
  exists added. split; [done|]. split_and!.
  - apply elem_of_app. right. by apply list_elem_of_singleton.
  - intros m [Hm| ->%list_elem_of_singleton]%elem_of_app Hne; [auto|done].
  - apply (greedy_inv_snoc g Hwf seed added Hseed); [|done].
    apply Forall_forall. intros m Hm.
    by apply Hlocal, elem_of_get_neighbors in Hm as [_ Hm].
  - by exists added.
Qed.

Lemma vec_at_global_degrees u :
  in_range g u = true →
  vec_at (weight_neighborhood.global_degrees g) u = Some (get_degree g u).
Proof.
  intros [H0 H1]%in_range_spec.
  unfold vec_at, weight_neighborhood.global_degrees, get_num_vertices.
  rewrite decide_True by done.
  rewrite list_lookup_fmap, lookup_seqZ_lt by lia. simpl.
  do 2 f_equal. lia.
Qed.

Lemma mapM_sized candidates :
  all_in_range g candidates →
  ∃ keyed, mapM (random_neighborhood.sized g) candidates = Some keyed ∧
           keyed.*2 = candidates.
Proof.
  induction 1 as [|a rest Ha _ (keyed & Hk & Hsnd)]; [by exists []|].
  destruct (adj_at_in_range g a (wf_length _ Hwf) Ha) as [s Hs].
  exists ((Z.of_nat (size s), a) :: keyed). split.
  - rewrite mapM_Some in Hk |- *. constructor; [|done].
    unfold random_neighborhood.sized. by rewrite Hs.
  - by rewrite fmap_cons, Hsnd.
Qed.
End neighbourhood.

Section weighted.
Context {Gen Real : Type}.
Context (noise_dist : Gen → Real * Gen).
Context (of_int : Z → Real) (real_add : Real → Real → Real).
Context (real_lt : Real → Real → bool).

Lemma weigh_total degrees neighbors gen :
  Forall (λ u, is_Some (vec_at degrees u)) neighbors →
  ∃ weighted gen',
    weight_neighborhood.weigh noise_dist of_int real_add
      degrees neighbors gen = Some (weighted, gen') ∧
    weighted.*2 = neighbors.
Proof.
  intros Hall. revert gen.
  induction Hall as [|u rest [d Hd] _ IH]; intros gen; simpl.
  - by exists [], gen.
  - rewrite Hd. destruct (noise_dist gen) as [noise gen1].
    destruct (IH gen1) as (tail & gen2 & -> & Htail).
    eexists _, gen2. split; [done|]. by rewrite fmap_cons, Htail.
Qed.

Lemma sort_descending_Permutation (c : list (Real * Z)) :
  weight_neighborhood.sort_descending real_lt c ≡ₚ c.
Proof.
  unfold weight_neighborhood.sort_descending, std_sort.
  by rewrite reverse_Permutation, merge_sort_Permutation,
    reverse_Permutation.
Qed.
End weighted.

(** C4.  A neighbourhood-restricted trial whose seed [s] is a vertex of a
    constructed graph returns a clique that contains [s], whose members
    other than [s] are neighbours of [s] (it is the greedy clique over an
    ordering of the neighbours of [s], with [s] appended), and that is
    pairwise adjacent.  This holds for the noisy weighted variant, whatever
    the random engine draws and however the scores compare, and for the
    variant that sorts the neighbours by degree. *)
Theorem neighborhood_trial_seed_correct
    {Gen Real : Type} (noise_dist : Gen → Real * Gen) (of_int : Z → Real)
    (real_add : Real → Real → Real) (real_lt : Real → Real → bool)
    (g : Graph) (s : Z) (gen : Gen) :
  constructed g → in_range g s = true →
  (∃ clique gen',
      weight_neighborhood.trial noise_dist of_int real_add real_lt
        g (weight_neighborhood.global_degrees g) s gen = Some (clique, gen') ∧
      seeded_clique g s clique) ∧
  (∃ clique,
      random_neighborhood.trial g s = Some clique ∧ seeded_clique g s clique).
Proof.
  intros Hwf%constructed_wf Hs. split.
  - unfold weight_neighborhood.trial.
    destruct (weigh_total noise_dist of_int real_add
                (weight_neighborhood.global_degrees g)
                (get_neighbors g s) gen) as (weighted & gen' & -> & Hsnd).
    { apply Forall_forall. intros u Hu%(get_neighbors_in_range g Hwf).
      rewrite vec_at_global_degrees by done. by eexists. }
    destruct (seeded_clique_of_order g Hwf s
                (weight_neighborhood.sort_descending real_lt weighted).*2 Hs)
      as (local & -> & Hok).
    { intros u. by rewrite sort_descending_Permutation, Hsnd. }
    by exists (local ++ [s]), gen'.
  - unfold random_neighborhood.trial,
      random_neighborhood.find_greedy_clique_in_subset.
    destruct (mapM_sized g Hwf (get_neighbors g s)) as (keyed & -> & Hsnd).
    { apply Forall_forall. intros u. apply (get_neighbors_in_range g Hwf). }
    simpl.
    destruct (seeded_clique_of_order g Hwf s
                (std_sort random_neighborhood.larger_first keyed).*2 Hs)
      as (local & Hrun & Hok).
    { intros u. unfold std_sort. by rewrite merge_sort_Permutation, Hsnd. }
    unfold find_greedy_max_clique in Hrun. rewrite Hrun. simpl.
    by exists (local ++ [s]).
Qed.

Lemma neighborhood_trial_seed_correct_witness :
  (∃ clique gen',
      weight_neighborhood.trial (λ gen : Z, (gen, gen + 1)) id Z.add Z.ltb
        scenario_A (weight_neighborhood.global_degrees scenario_A) 2 0
        = Some (clique, gen') ∧
      seeded_clique scenario_A 2 clique) ∧
  (∃ clique,
      random_neighborhood.trial scenario_A 2 = Some clique ∧
      seeded_clique scenario_A 2 clique).
Proof.
  apply (neighborhood_trial_seed_correct
           (λ gen : Z, (gen, gen + 1)) id Z.add Z.ltb scenario_A 2 0).
  - do 4 apply constructed_add. by apply (constructed_ctor 4).
  - reflexivity.
Defined.

(** ** The best-clique holder *)

Lemma offer_locked_length best current :
  length (offer_locked best current) = (length best `max` length current)%nat.
Proof. unfold offer_locked. case_match; [apply Nat.ltb_lt in H|apply Nat.ltb_ge in H]; lia. Qed.

Lemma foldl_offer_locked_length best completion :
  length (foldl offer_locked best completion) =
  (length best `max` largest_size completion)%nat.
Proof.
  revert best. induction completion as [|c rest IH]; intros best; simpl.
  - unfold largest_size. simpl. lia.
  - rewrite IH, offer_locked_length. unfold largest_size. simpl. lia.
Qed.

Lemma run_locked_length completion :
  length (run_locked completion) = largest_size completion.
Proof. unfold run_locked. by rewrite foldl_offer_locked_length. Qed.

Lemma largest_size_app l1 l2 :
  largest_size (l1 ++ l2) = (largest_size l1 `max` largest_size l2)%nat.
Proof.
  unfold largest_size. induction l1 as [|c l1 IH]; simpl; [done|].
  rewrite IH. lia.
Qed.

Lemma largest_size_take_le (k : nat) l :
  (largest_size (take k l) ≤ largest_size l)%nat.
Proof.
  rewrite <- (take_drop k l) at 2. rewrite largest_size_app. lia.
Qed.

Lemma largest_size_take_S (k : nat) l :
  (largest_size (take k l) ≤ largest_size (take (S k) l))%nat.
Proof.
  destruct (l !! k) as [c|] eqn:Hk.
  - rewrite (take_S_r _ _ _ Hk), largest_size_app. lia.
  - apply lookup_ge_None in Hk. rewrite !take_ge by lia. done.
Qed.

Lemma holder_init_inv : holder_inv holder_init.
Proof. split; [done|]. by repeat constructor. Qed.

Lemma offer_step_inv h c h' :
  holder_inv h → offer_step h c h' →
  holder_inv h' ∧
  length (best_clique h') = (length (best_clique h) `max` length c)%nat.
Proof.
  intros [Hsize Hstored] Hstep. destruct Hstep as [h c seen Hseen].
  unfold holder_inv in *. rewrite Forall_forall in Hstored.
  specialize (Hstored _ Hseen) as Hle.
  unfold offer_checked.
  destruct (seen <? length c)%nat eqn:H1;
    [apply Nat.ltb_lt in H1|apply Nat.ltb_ge in H1].
  - destruct (length (best_clique h) <? length c)%nat eqn:H2;
      [apply Nat.ltb_lt in H2|apply Nat.ltb_ge in H2]; simpl.
    + split_and!; [done| |lia]. constructor; [done|].
      apply Forall_forall. intros n Hn%Hstored. lia.
    + split_and!; [done| |lia]. by apply Forall_forall.
  - split_and!; [done| |lia]. by apply Forall_forall.
Qed.

Lemma run_checked_inv h completion h' :
  holder_inv h → run_checked h completion h' →
  holder_inv h' ∧
  length (best_clique h') =
    (length (best_clique h) `max` largest_size completion)%nat.
Proof.
  intros Hinv Hrun. induction Hrun as [h|h1 h2 h3 c rest Hstep _ IH].
  - split; [done|]. unfold largest_size. simpl. lia.
  - destruct (offer_step_inv _ _ _ Hinv Hstep) as [Hinv2 Hlen2].
    destruct (IH Hinv2) as [Hinv3 Hlen3]. split; [done|].
    rewrite Hlen3, Hlen2. unfold largest_size. simpl. lia.
Qed.

Lemma run_checked_total h completion :
  stored h ≠ [] → ∃ h', run_checked h completion h'.
Proof.
  revert h. induction completion as [|c rest IH]; intros h Hne.
  - exists h. constructor.
  - destruct (stored h) as [|seen others] eqn:Hst; [done|].
    destruct (IH (offer_checked seen c h)) as [h' Hrun].
    { unfold offer_checked. repeat case_match; simpl; by rewrite ?Hst. }
    exists h'. econstructor; [|done].
    constructor. rewrite Hst. by left.
Qed.

(** C3.  Let the trials' cliques [outputs] be offered in any completion
    order.  With the update under the mutex, the held size after [k]
    offers is at most the held size after [k+1] offers, which is at most
    the largest trial size, and after all the offers it is the largest
    trial size.  With the atomic pre-check and the re-check under the
    mutex, whatever earlier values the relaxed loads return, a run exists,
    the held size never decreases from one state of a run to a later one,
    never exceeds the largest trial size, and ends equal to it, as does
    [max_size].  On sizes, keeping the larger is [max]: commutative and
    associative. *)
Theorem best_clique_holder_monotone_exact
    (outputs completion : list (list Z)) :
  completion ≡ₚ outputs →
  (∀ k : nat,
     (length (run_locked (take k completion))
      ≤ length (run_locked (take (S k) completion))
      ≤ largest_size outputs)%nat) ∧
  length (run_locked completion) = largest_size outputs ∧
  (∃ h, run_checked holder_init completion h) ∧
  (∀ l1 l2 l3 h1 h2, completion = l1 ++ l2 ++ l3 →
     run_checked holder_init l1 h1 → run_checked h1 l2 h2 →
     (length (best_clique h1) ≤ length (best_clique h2)
      ≤ largest_size outputs)%nat) ∧
  (∀ h, run_checked holder_init completion h →
     length (best_clique h) = largest_size outputs ∧
     max_size h = largest_size outputs) ∧
  (∀ a b c : list Z,
     length (offer_locked a b) = length (offer_locked b a) ∧
     length (offer_locked (offer_locked a b) c) =
       length (offer_locked a (offer_locked b c)) ∧
     length (offer_locked a b) = (length a `max` length b)%nat).
Proof.
  intros Hperm.
  assert (largest_size completion = largest_size outputs) as HM.
  { unfold largest_size. by rewrite Hperm. }
  split_and!.
  - intros k. rewrite !run_locked_length, <- HM. split.
    + apply largest_size_take_S.
    + apply largest_size_take_le.
  - by rewrite run_locked_length.
  - by apply run_checked_total.
  - intros l1 l2 l3 h1 h2 -> Hrun1 Hrun2.
    destruct (run_checked_inv _ _ _ holder_init_inv Hrun1) as [Hinv1 Hlen1].
    destruct (run_checked_inv _ _ _ Hinv1 Hrun2) as [_ Hlen2].
    rewrite <- HM, !largest_size_app. simpl in Hlen1. lia.
  - intros h Hrun.
    destruct (run_checked_inv _ _ _ holder_init_inv Hrun) as [[Hsz _] Hlen].
    simpl in Hlen. rewrite Hsz, Hlen. by rewrite HM.
  - intros a b c. rewrite !offer_locked_length. lia.
Qed.

Lemma best_clique_holder_monotone_exact_witness :
  (∀ k : nat,
     (length (run_locked (take k sample_completion))
      ≤ length (run_locked (take (S k) sample_completion))
      ≤ largest_size sample_outputs)%nat) ∧
  length (run_locked sample_completion)
    = largest_size sample_outputs ∧
  (∃ h, run_checked holder_init sample_completion h) ∧
  (∀ l1 l2 l3 h1 h2, sample_completion = l1 ++ l2 ++ l3 →
     run_checked holder_init l1 h1 → run_checked h1 l2 h2 →
     (length (best_clique h1) ≤ length (best_clique h2)
      ≤ largest_size sample_outputs)%nat) ∧
  (∀ h, run_checked holder_init sample_completion h →
     length (best_clique h) = largest_size sample_outputs ∧
     max_size h = largest_size sample_outputs) ∧
  (∀ a b c : list Z,
     length (offer_locked a b) = length (offer_locked b a) ∧
     length (offer_locked (offer_locked a b) c) =
       length (offer_locked a (offer_locked b c)) ∧
     length (offer_locked a b) = (length a `max` length b)%nat).
Proof.
  apply (best_clique_holder_monotone_exact sample_outputs sample_completion).
  unfold sample_outputs, sample_completion.
  etrans; [apply perm_swap|]. apply perm_skip, perm_swap.
Defined.

(** ** Vertex arguments outside [0,N) *)

Lemma get_neighbors_out_of_range g v :
  in_range g v = false → get_neighbors g v = [].
Proof.
  unfold in_range, get_neighbors. intros Hv.
  apply andb_false_iff in Hv. rewrite Z.leb_gt, Z.ltb_ge in Hv.
  destruct ((v <? 0) || (num_vertices_ g <=? v)) eqn:Hguard; [done|].
  apply orb_false_iff in Hguard. rewrite Z.ltb_ge, Z.leb_gt in Hguard. lia.
Qed.

Lemma get_degree_out_of_range g v : in_range g v = false → get_degree g v = 0.
Proof. unfold get_degree. by intros ->. Qed.

Lemma add_edge_out_of_range_l g u v : in_range g u = false → add_edge g u v = g.
Proof. unfold add_edge. by intros ->. Qed.

Lemma add_edge_out_of_range_r g u v : in_range g v = false → add_edge g u v = g.
Proof. unfold add_edge. intros ->. by rewrite andb_false_r. Qed.

(** C7, as the specification states it, fails: on scenario A the vertex 7
    is out of range, yet [get_neighbors(7)] returns the empty vector and
    [add_edge(7,0)] returns with the graph unchanged and nothing
    reported. *)
Lemma out_of_range_not_reported :
  in_range scenario_A 7 = false ∧
  call_get_neighbors scenario_A 7 = Returned [] [] ∧
  ¬ fails (call_get_neighbors scenario_A 7) ∧
  call_add_edge scenario_A 7 0 = Returned scenario_A [] ∧
  ¬ reports_error (call_add_edge scenario_A 7 0).
Proof.
  split_and!; [done|done| |done|].
  - intros [].
  - intros H. by apply H.
Qed.

(** C7, amended.  For a vertex [v] outside [0,N), [get_neighbors(v)]
    returns the empty vector without failing and without a diagnostic,
    and [add_edge] with [v] as either endpoint returns with the graph
    unchanged and without a diagnostic: the out-of-range argument is
    dropped silently. *)
Theorem out_of_range_dropped_silently (g : Graph) (v : Z) :
  in_range g v = false →
  call_get_neighbors g v = Returned [] [] ∧
  (∀ u, call_add_edge g u v = Returned g [] ∧
        call_add_edge g v u = Returned g []).
Proof.
  intros Hv. unfold call_get_neighbors, call_add_edge. split.
  - by rewrite get_neighbors_out_of_range.
  - intros u.
    by rewrite (add_edge_out_of_range_r g u v Hv),
      (add_edge_out_of_range_l g v u Hv).
Qed.

Lemma out_of_range_dropped_silently_witness :
  call_get_neighbors scenario_A (-1) = Returned [] [] ∧
  (∀ u, call_add_edge scenario_A u (-1) = Returned scenario_A [] ∧
        call_add_edge scenario_A (-1) u = Returned scenario_A []).
Proof. apply (out_of_range_dropped_silently scenario_A (-1)). reflexivity. Defined.

(** C10.  The accessors are total on out-of-range vertices: for [v]
    outside [0,N), [get_neighbors(v)] is the empty vector, [get_degree(v)]
    is 0 and [add_edge] with [v] as either endpoint leaves the graph as it
    was.  Each is a value of a total function: none aborts or throws. *)
Theorem accessors_total_out_of_range (g : Graph) (v : Z) :
  in_range g v = false →
  get_neighbors g v = [] ∧
  get_degree g v = 0 ∧
  (∀ u, add_edge g u v = g ∧ add_edge g v u = g) ∧
  ¬ fails (call_get_neighbors g v) ∧
  ¬ fails (call_get_degree g v) ∧
  (∀ u, ¬ fails (call_add_edge g u v) ∧ ¬ fails (call_add_edge g v u)).
Proof.
  intros Hv. split_and!.
  - by apply get_neighbors_out_of_range.
  - by apply get_degree_out_of_range.
  - intros u. split.
    + by apply add_edge_out_of_range_r.
    + by apply add_edge_out_of_range_l.
  - intros [].
  - intros [].
  - intros u. split; intros [].
Qed.

Lemma accessors_total_out_of_range_witness :
  get_neighbors scenario_A 4 = [] ∧
  get_degree scenario_A 4 = 0 ∧
  (∀ u, add_edge scenario_A u 4 = scenario_A ∧
        add_edge scenario_A 4 u = scenario_A) ∧
  ¬ fails (call_get_neighbors scenario_A 4) ∧
  ¬ fails (call_get_degree scenario_A 4) ∧
  (∀ u, ¬ fails (call_add_edge scenario_A u 4) ∧
        ¬ fails (call_add_edge scenario_A 4 u)).
Proof. apply (accessors_total_out_of_range scenario_A 4). reflexivity. Defined.

(** ** Graphs built by the collaborators *)

Lemma wf_symmetric g : Graph_wf g → symmetric_adjacency g.
Proof. intros Hwf u v. split; by apply adjacent_sym. Qed.

Lemma adjacent_add_edge g a b u v :
  Graph_wf g →
  adjacent (add_edge g a b) u v ↔
  adjacent g u v ∨
  (in_range g a = true ∧ in_range g b = true ∧
   ((u = a ∧ v = b) ∨ (u = b ∧ v = a))).
Proof.
  intros Hwf.
  destruct (in_range g a) eqn:Ha; [destruct (in_range g b) eqn:Hb|].
  - rewrite !adjacent_iff, adj_at_add_edge by done. split.
    + intros (s' & Hs' & Hv).
      destruct (adj_at g u) as [s|] eqn:Hu; [|done]. injection Hs' as <-.
      rewrite !elem_of_union in Hv. destruct Hv as [[Hv|Hv]|Hv].
      * case_decide; [|set_solver]. apply elem_of_singleton in Hv.
        right. split_and!; [done..|]. auto.
      * case_decide; [|set_solver]. apply elem_of_singleton in Hv.
        right. split_and!; [done..|]. auto.
      * left. by exists s.
    + intros [(s & Hs & Hv)|(_ & _ & [[-> ->]|[-> ->]])].
      * rewrite Hs. simpl. eexists. split; [reflexivity|].
        rewrite !elem_of_union. by right.
      * destruct (adj_at_in_range g a (wf_length _ Hwf) Ha) as [s ->].
        simpl. eexists. split; [reflexivity|].
        rewrite !elem_of_union, (decide_True (P := a = a)) by done.
        left. right. by apply elem_of_singleton.
      * destruct (adj_at_in_range g b (wf_length _ Hwf) Hb) as [s ->].
        simpl. eexists. split; [reflexivity|].
        rewrite !elem_of_union, (decide_True (P := b = b)) by done.
        left. left. by apply elem_of_singleton.
  - rewrite add_edge_out_of_range_r by done. intuition congruence.
  - rewrite add_edge_out_of_range_l by done. intuition congruence.
Qed.

Lemma Graph_ctor_not_adjacent n g u v : Graph_ctor n = Some g → ¬ adjacent g u v.
Proof.
  unfold Graph_ctor. case_decide; [|done]. intros [= <-].
  intros (s & Hs & Hv)%adjacent_iff. unfold adj_at in Hs. simpl in Hs.
  case_decide; [|done]. apply lookup_replicate_1 in Hs as [-> _]. set_solver.
Qed.

Lemma Graph_ctor_num_vertices n g : Graph_ctor n = Some g → num_vertices_ g = n.
Proof. unfold Graph_ctor. case_decide; [|done]. by intros [= <-]. Qed.

(** *** The loader's second loop *)

Lemma read_edges_adjacent g lines g' :
  Graph_wf g → read_edges g lines = Some g' →
  Graph_wf g' ∧
  (∀ w, in_range g' w = in_range g w) ∧
  (∀ u v, adjacent g' u v ↔
     adjacent g u v ∨
     (in_range g u = true ∧ in_range g v = true ∧
      ∃ line, line ∈ lines ∧
              (parse_edge_line line = edge_call u v ∨
               parse_edge_line line = edge_call v u))).
Proof.
  revert g. induction lines as [|line rest IH]; intros g Hwf; simpl.
  - intros [= <-]. split_and!; [done..|]. intros u v. split; [auto|].
    intros [?|(_ & _ & line & []%elem_of_nil & _)]. done.
  - destruct (parse_edge_line line) as [|a b|] eqn:Hline; [| |done].
    + intros (Hwf' & Hrange & Hadj)%IH; [|done].
      split_and!; [done..|]. intros u v. rewrite Hadj.
      split; (intros [?|(Hu & Hv & l & Hl & Hparse)]; [by left|right]).
      * split_and!; [done..|]. exists l. split; [by right|done].
      * split_and!; [done..|]. exists l. split; [|done].
        apply elem_of_cons in Hl as [->|Hl]; [|done].
        destruct Hparse; congruence.
    + intros (Hwf' & Hrange & Hadj)%IH; [|by apply add_edge_wf].
      split_and!; [done| |].
      * intros w. by rewrite Hrange, in_range_add_edge.
      * intros u v. rewrite Hadj, !in_range_add_edge, adjacent_add_edge by done.
        split.
        -- intros [[?|(Ha & Hb & Huv)]|(Hu & Hv & l & Hl & Hparse)].
           ++ by left.
           ++ right. assert (in_range g u = true ∧ in_range g v = true)
                as [? ?] by (destruct Huv as [[-> ->]|[-> ->]]; done).
              split_and!; [done..|]. exists line. split; [by left|].
              destruct Huv as [[-> ->]|[-> ->]]; auto.
           ++ right. split_and!; [done..|]. exists l. split; [by right|done].
        -- intros [?|(Hu & Hv & l & Hl & Hparse)]; [by left; left|].
           apply elem_of_cons in Hl as [->|Hl].
           ++ left. right. rewrite Hline in Hparse.
              destruct Hparse as [[= -> ->]|[= -> ->]]; auto.
           ++ right. split_and!; [done..|]. by exists l.
Qed.

Lemma read_edges_constructed g lines g' :
  constructed g → read_edges g lines = Some g' → constructed g'.
Proof.
  revert g. induction lines as [|line rest IH]; intros g Hg; simpl.
  - by intros [= <-].
  - destruct (parse_edge_line line); [by apply IH| |done].
    apply IH. by constructor.
Qed.

Lemma load_dimacs_graph_Returned variant lines g cerr :
  load_dimacs_graph variant lines = Returned g cerr →
  ∃ g0, Graph_ctor (find_header lines).1 = Some g0 ∧
        read_edges g0 (find_header lines).2 = Some g.
Proof.
  unfold load_dimacs_graph. destruct (find_header lines) as [n rest]. simpl.
  assert (match Graph_ctor n with
          | Some g0 => match read_edges g0 rest with
                       | Some g' => Returned g' []
                       | None => Undefined
                       end
          | None => Threw "std::length_error"
          end = Returned g cerr →
          ∃ g0, Graph_ctor n = Some g0 ∧ read_edges g0 rest = Some g) as Hc.
  { destruct (Graph_ctor n) as [g0|]; [|done].
    destruct (read_edges g0 rest) as [g'|] eqn:Hread; [|done].
    intros [= <- <-]. exists g0. by split. }
  destruct variant; [destruct (n =? 0); [done|]..|]; apply Hc.
Qed.

(** *** The generator *)

Lemma for_each_inv {S} (P : S → Prop) (body : Z → S → option S) range s :
  (∀ i s, i ∈ range → P s → ∃ s', body i s = Some s' ∧ P s') →
  P s → ∃ s', for_each body range s = Some s' ∧ P s'.
Proof.
  revert s. induction range as [|i rest IH]; intros s Hbody Hs; simpl.
  - by exists s.
  - destruct (Hbody i s) as (s1 & -> & Hs1); [by left|done|].
    apply IH; [|done]. intros j s2 Hj. apply Hbody. by right.
Qed.

Lemma greedy_mel_add_edge g u v :
  Graph_wf g → in_range g u = true → in_range g v = true →
  greedy_mel.add_edge g u v = Some (add_edge g u v).
Proof.
  intros Hwf Hu Hv. unfold greedy_mel.add_edge, add_edge.
  destruct (adj_at_in_range g u (wf_length _ Hwf) Hu) as [su ->].
  destruct (adj_at_in_range g v (wf_length _ Hwf) Hv) as [sv ->].
  by rewrite Hu, Hv.
Qed.

(** What the generator's loops maintain. *)
Lemma maybe_edge_inv {Gen Real} (dis : Gen → Real * Gen)
    (real_lt : Real → Real → bool) (p : Real) (n i j : Z) (s : Graph * Gen) :
  0 ≤ i < j → j < n →
  generated n s.1 →
  ∃ s', greedy_mel.maybe_edge dis real_lt p i j s = Some s' ∧
        generated n s'.1.
Proof.
  intros Hi Hj (Hc & HN & Hloop). pose proof (constructed_wf _ Hc) as Hwf.
  unfold greedy_mel.maybe_edge.
  destruct (dis s.2) as [x gen']. destruct (real_lt x p).
  - rewrite greedy_mel_add_edge; [|done|apply in_range_spec; lia..].
    eexists. split; [done|]. simpl. split_and!.
    + by constructor.
    + unfold add_edge. by destruct (_ && _).
    + intros w [Hw|(_ & _ & [[-> ->]|[-> ->]])]%adjacent_add_edge; [|lia..|done].
      by eapply Hloop.
  - eexists. split; [done|]. by split_and!.
Qed.

Lemma create_random_graph_generated {Gen Real} (dis : Gen → Real * Gen)
    (real_lt : Real → Real → bool) (n : Z) (p : Real) (gen : Gen) :
  0 ≤ n →
  ∃ g gen', greedy_mel.create_random_graph dis real_lt n p gen
              = Returned (g, gen') [] ∧
            generated n g.
Proof.
  intros Hn. unfold greedy_mel.create_random_graph.
  destruct (Graph_ctor n) as [g0|] eqn:Hg0;
    [|unfold Graph_ctor in Hg0; by rewrite decide_True in Hg0].
  destruct (for_each_inv (λ s : Graph * Gen, generated n s.1)
              (λ i, for_each (greedy_mel.maybe_edge dis real_lt p i)
                      (seqZ (i + 1) (n - (i + 1))))
              (seqZ 0 n) (g0, gen)) as ([g gen'] & -> & Hgen).
  - intros i s Hi%elem_of_seqZ Hs. apply for_each_inv; [|done].
    intros j s' Hj%elem_of_seqZ Hs'. apply maybe_edge_inv; [lia..|done].
  - simpl. split_and!.
    + by eapply constructed_ctor.
    + by eapply Graph_ctor_num_vertices.
    + intros w. by eapply Graph_ctor_not_adjacent.
  - by exists g, gen'.
Qed.

(** C9, as the specification states it, fails: the loader turns the edge
    line [e 1 1] into [add_edge(0,0)], after which vertex 0 is its own
    neighbour. *)
Lemma loader_creates_self_loop :
  ∃ g, load_dimacs_graph check_with_diagnostic loop_file = Returned g [] ∧
       is_adjacent g 0 0 = Some true ∧
       get_neighbors g 0 = [0] ∧
       ¬ no_self_loop g.
Proof.
  eexists. split; [by vm_compute|]. split_and!; [by vm_compute..|].
  intros Hloop. apply (Hloop 0). by vm_compute.
Qed.

(** C9, amended.  The generator, for any vertex count [n >= 0], any
    probability and any state of the random engine, returns a graph whose
    adjacency is symmetric and without self-loops.  A graph returned by
    the loader, in any of its variants, has a symmetric adjacency; its
    edges are exactly the in-range pairs of the edge lines, so a vertex
    [w] is its own neighbour exactly when an edge line gives [w] for both
    endpoints after the conversion to 0-based numbers. *)
Theorem collaborators_symmetric_adjacency
    {Gen Real : Type} (dis : Gen → Real * Gen)
    (real_lt : Real → Real → bool)
    (n : Z) (edge_probability : Real) (gen : Gen)
    (variant : header_check) (lines : list string)
    (loaded : Graph) (cerr : list string) :
  0 ≤ n →
  load_dimacs_graph variant lines = Returned loaded cerr →
  (∃ g gen',
      greedy_mel.create_random_graph dis real_lt n edge_probability gen
        = Returned (g, gen') [] ∧
      symmetric_adjacency g ∧ no_self_loop g) ∧
  symmetric_adjacency loaded ∧
  (∀ u v, adjacent loaded u v ↔
     in_range loaded u = true ∧ in_range loaded v = true ∧
     ∃ line, line ∈ (find_header lines).2 ∧
             (parse_edge_line line = edge_call u v ∨
              parse_edge_line line = edge_call v u)) ∧
  (∀ w, adjacent loaded w w ↔
     in_range loaded w = true ∧
     ∃ line, line ∈ (find_header lines).2 ∧
             parse_edge_line line = edge_call w w).
Proof.
  intros Hn (g0 & Hg0 & Hread)%load_dimacs_graph_Returned.
  pose proof (Graph_ctor_wf _ _ Hg0) as Hwf0.
  destruct (read_edges_adjacent _ _ _ Hwf0 Hread) as (Hwf & Hrange & Hadj).
  assert (∀ u v, adjacent loaded u v ↔
     in_range loaded u = true ∧ in_range loaded v = true ∧
     ∃ line, line ∈ (find_header lines).2 ∧
             (parse_edge_line line = edge_call u v ∨
              parse_edge_line line = edge_call v u)) as Hedges.
  { intros u v. rewrite Hadj, !Hrange. split; [|auto].
    intros [Hno|?]; [|done]. by apply (Graph_ctor_not_adjacent _ _ _ _ Hg0) in Hno. }
  split_and!.
  - destruct (create_random_graph_generated dis real_lt n edge_probability
                gen Hn) as (g & gen' & Hrun & Hc & _ & Hloop).
    exists g, gen'. split_and!; [done| |done].
    by apply wf_symmetric, constructed_wf.
  - by apply wf_symmetric.
  - done.
  - intros w. rewrite Hedges. split.
    + intros (Hw & _ & line & Hline & Hparse). split; [done|].
      exists line. split; [done|]. by destruct Hparse.
    + intros (Hw & line & Hline & Hparse). split_and!; [done..|].
      exists line. auto.
Qed.

Lemma collaborators_symmetric_adjacency_witness :
  (∃ g gen',
      greedy_mel.create_random_graph (λ gen : Z, (gen, gen + 1)) Z.ltb 3 1 0
        = Returned (g, gen') [] ∧
      symmetric_adjacency g ∧ no_self_loop g) ∧
  symmetric_adjacency scenario_A ∧
  (∀ u v, adjacent scenario_A u v ↔
     in_range scenario_A u = true ∧ in_range scenario_A v = true ∧
     ∃ line, line ∈ (find_header scenario_A_file).2 ∧
             (parse_edge_line line = edge_call u v ∨
              parse_edge_line line = edge_call v u)) ∧
  (∀ w, adjacent scenario_A w w ↔
     in_range scenario_A w = true ∧
     ∃ line, line ∈ (find_header scenario_A_file).2 ∧
             parse_edge_line line = edge_call w w).
Proof.
  apply (collaborators_symmetric_adjacency (λ gen : Z, (gen, gen + 1)) Z.ltb
           3 1 0 check_with_diagnostic scenario_A_file scenario_A []).
  - lia.
  - by vm_compute.
Defined.

(** ** The header check of the loader *)

Lemma find_header_skip before lines :
  Forall (λ line, starts_with "p" line = false) before →
  find_header (before ++ lines) = find_header lines.
Proof. induction 1 as [|line before Hline _ IH]; simpl; [done|]. by rewrite Hline. Qed.

Lemma find_header_count_zero lines :
  (find_header lines).1 = 0 ↔ no_vertex_count lines.
Proof.
  split.
  - induction lines as [|line rest IH]; simpl.
    + intros _. left. constructor.
    + destruct (starts_with "p" line) eqn:Hp; simpl.
      * intros Hzero. right. exists [], line, rest. by split_and!.
      * intros [Hall|(before & header & after & -> & Hb & Hh & Hz)]%IH.
        -- left. by constructor.
        -- right. exists (line :: before), header, after.
           split_and!; [done| |done..]. by constructor.
  - intros [Hall|(before & header & after & -> & Hb & Hh & Hz)].
    + rewrite <- (app_nil_r lines). by rewrite find_header_skip.
    + rewrite find_header_skip by done. simpl. by rewrite Hh.
Qed.

(** C8, as the specification states it, fails.  A header line without the
    format tag is accepted by the loader that has the check: [p 3 2] is
    read as a graph on 2 vertices, and the edge line after it is loaded.
    The loader without the check returns the empty graph for a file with
    no header at all. *)
Lemma bad_header_accepted :
  spec_header_ok untagged_file = false ∧
  load_dimacs_graph check_with_diagnostic untagged_file
    = Returned (mkGraph 2 [{[1]}; {[0]}]) [] ∧
  spec_header_ok [] = false ∧
  load_dimacs_graph no_check [] = Returned (mkGraph 0 []) [].
Proof. split_and!; by vm_compute. Qed.

(** C8, amended.  In the programs whose loader tests [num_vertices == 0]
    after the first loop, every input in which no line starts with [p],
    or in which the first such line gives 0 for the vertex count, ends
    the process with [exit(1)] before any graph is constructed: after the
    diagnostic on [std::cerr] in [dataset_taskflow_greedy.cc] and the
    programs with the same loader, without any output in the programs
    that call [exit(1)] alone. *)
Theorem header_without_vertex_count_exits
    (variant : header_check) (lines : list string) :
  variant ≠ no_check →
  no_vertex_count lines →
  load_dimacs_graph variant lines =
    Exited 1 (match variant with
              | check_with_diagnostic => [invalid_format]
              | _ => []
              end).
Proof.
  intros Hvariant Hzero%find_header_count_zero.
  unfold load_dimacs_graph. destruct (find_header lines) as [n rest].
  simpl in Hzero. subst n. by destruct variant.
Qed.

Lemma header_without_vertex_count_exits_witness :
  load_dimacs_graph check_with_diagnostic
    ["c no header"; "e 1 2"]%string = Exited 1 [invalid_format] ∧
  load_dimacs_graph check_silent
    ["p edge x 3"; "e 1 2"]%string = Exited 1 [].
Proof.
  split.
  - apply (header_without_vertex_count_exits check_with_diagnostic
             ["c no header"; "e 1 2"]%string); [done|].
    left. by repeat constructor.
  - apply (header_without_vertex_count_exits check_silent
             ["p edge x 3"; "e 1 2"]%string); [done|].
    right. by exists [], "p edge x 3"%string, ["e 1 2"%string].
Defined.

(** * Further properties *)

(** ** The adjacency structure as an edge set *)

Lemma Graph_eq g1 g2 :
  num_vertices_ g1 = num_vertices_ g2 →
  (∀ w, adj_at g1 w = adj_at g2 w) → g1 = g2.
Proof.
  destruct g1 as [n1 adj1], g2 as [n2 adj2]. simpl. intros -> Hadj.
  f_equal. apply list_eq. intros i. specialize (Hadj (Z.of_nat i)).
  unfold adj_at in Hadj. simpl in Hadj.
  destruct (decide (0 ≤ Z.of_nat i)); [|lia]. by rewrite Nat2Z.id in Hadj.
Qed.

Lemma num_vertices_add_edge g a b :
  num_vertices_ (add_edge g a b) = num_vertices_ g.
Proof. unfold add_edge. by destruct (_ && _). Qed.

Lemma adj_at_add_edge_new g a b w :
  adj_at (add_edge g a b) w = (λ s, new_neighbours g a b w ∪ s) <$> adj_at g w.
Proof.
  unfold new_neighbours.
  destruct (in_range g a) eqn:Ha; [destruct (in_range g b) eqn:Hb|]; simpl.
  - by rewrite adj_at_add_edge.
  - rewrite add_edge_out_of_range_r by done.
    destruct (adj_at g w) as [s|]; simpl; [|done]. f_equal. set_solver.
  - rewrite add_edge_out_of_range_l by done.
    destruct (adj_at g w) as [s|]; simpl; [|done]. f_equal. set_solver.
Qed.

Lemma new_neighbours_add_edge g c d a b w :
  new_neighbours (add_edge g c d) a b w = new_neighbours g a b w.
Proof. unfold new_neighbours. by rewrite !in_range_add_edge. Qed.

Lemma new_neighbours_sym g a b w :
  new_neighbours g a b w = new_neighbours g b a w.
Proof.
  unfold new_neighbours. rewrite (andb_comm (in_range g b)).
  destruct (_ && _); [|done]. set_solver.
Qed.

(** X1.  Looking an edge up after an insertion: on a constructed graph,
    after [add_edge(a,b)] the vertices [u] and [v] are adjacent exactly
    when they were adjacent before or the call was in range and [{u,v}]
    is [{a,b}]; and [is_adjacent(u,_)] stays defined for every vertex
    [u] of the graph. *)
Theorem add_edge_then_is_adjacent (g : Graph) (a b u v : Z) :
  constructed g →
  (is_adjacent (add_edge g a b) u v = Some true ↔
     is_adjacent g u v = Some true ∨
     (in_range g a = true ∧ in_range g b = true ∧
      ((u = a ∧ v = b) ∨ (u = b ∧ v = a)))) ∧
  (in_range g u = true → is_Some (is_adjacent (add_edge g a b) u v)).
Proof.
  intros Hc. pose proof (constructed_wf _ Hc) as Hwf. split.
  - apply (adjacent_add_edge g a b u v Hwf).
  - intros Hu. apply is_adjacent_defined; [by apply add_edge_wf|].
    by rewrite in_range_add_edge.
Qed.

Lemma add_edge_then_is_adjacent_witness :
  (is_adjacent (add_edge scenario_A 3 0) 0 3 = Some true ↔
     is_adjacent scenario_A 0 3 = Some true ∨
     (in_range scenario_A 3 = true ∧ in_range scenario_A 0 = true ∧
      ((0 = 3 ∧ 3 = 0) ∨ (0 = 0 ∧ 3 = 3)))) ∧
  (in_range scenario_A 0 = true →
   is_Some (is_adjacent (add_edge scenario_A 3 0) 0 3)).
Proof.
  apply (add_edge_then_is_adjacent scenario_A 3 0 0 3).
  do 4 apply constructed_add. by apply (constructed_ctor 4).
Defined.

Lemma add_edge_sym g u v : add_edge g u v = add_edge g v u.
Proof.
  apply Graph_eq; [by rewrite !num_vertices_add_edge|]. intros w.
  rewrite !adj_at_add_edge_new. by rewrite new_neighbours_sym.
Qed.

Lemma add_edge_idemp g u v : add_edge (add_edge g u v) u v = add_edge g u v.
Proof.
  apply Graph_eq; [by rewrite !num_vertices_add_edge|]. intros w.
  rewrite !adj_at_add_edge_new, new_neighbours_add_edge.
  destruct (adj_at g w) as [s|]; simpl; [|done]. f_equal. set_solver.
Qed.

Lemma add_edge_comm g a b c d :
  add_edge (add_edge g a b) c d = add_edge (add_edge g c d) a b.
Proof.
  apply Graph_eq; [by rewrite !num_vertices_add_edge|]. intros w.
  rewrite !adj_at_add_edge_new, !new_neighbours_add_edge.
  destruct (adj_at g w) as [s|]; simpl; [|done]. f_equal. set_solver.
Qed.

(** X2.  [add_edge] does not depend on the order of its endpoints, and
    adding an edge a second time changes nothing; this holds for every
    value of the arguments, in range or not. *)
Theorem add_edge_symmetric_idempotent (g : Graph) (u v : Z) :
  add_edge g u v = add_edge g v u ∧
  add_edge (add_edge g u v) u v = add_edge g u v.
Proof. split; [apply add_edge_sym|apply add_edge_idemp]. Qed.

(** X3.  Two [add_edge] calls commute: the graph built from a sequence of
    insertions does not depend on their order. *)
Theorem add_edge_commute (g : Graph) (a b c d : Z) :
  add_edge (add_edge g a b) c d = add_edge (add_edge g c d) a b.
Proof. apply add_edge_comm. Qed.

Lemma get_neighbors_length g u :
  Z.of_nat (length (get_neighbors g u)) = get_degree g u.
Proof.
  unfold get_neighbors, get_degree, in_range.
  destruct (Z.ltb_spec u 0), (Z.leb_spec (num_vertices_ g) u),
    (Z.leb_spec 0 u), (Z.ltb_spec u (num_vertices_ g)); simpl; try lia.
  by destruct (adj_at g u).
Qed.

Lemma get_neighbors_NoDup g u : NoDup (get_neighbors g u).
Proof.
  unfold get_neighbors. destruct (_ || _); [constructor|].
  destruct (adj_at g u); [apply NoDup_elements|constructor].
Qed.

(** X4.  The neighbour list and the degree agree: [get_neighbors(u)] has
    no repetition and [get_degree(u)] elements, for every [u]; on a
    constructed graph it lists exactly the [v] with [is_adjacent(u,v)]. *)
Theorem get_neighbors_lists_adjacent (g : Graph) (u : Z) :
  constructed g →
  NoDup (get_neighbors g u) ∧
  Z.of_nat (length (get_neighbors g u)) = get_degree g u ∧
  (∀ v, v ∈ get_neighbors g u ↔ is_adjacent g u v = Some true).
Proof.
  intros Hc. pose proof (constructed_wf _ Hc) as Hwf. split_and!.
  - apply get_neighbors_NoDup.
  - apply get_neighbors_length.
  - intros v. rewrite elem_of_get_neighbors. split; [by intros [_ ?]|].
    intros Hadj. split; [|done].
    apply adjacent_iff in Hadj as (s & Hs & _).
    apply in_range_spec. pose proof (adj_at_Some _ _ _ Hs).
    unfold adj_at in Hs. rewrite decide_True in Hs by done.
    apply lookup_lt_Some in Hs. rewrite (wf_length _ Hwf) in Hs. lia.
Qed.

Lemma get_neighbors_lists_adjacent_witness :
  NoDup (get_neighbors scenario_A 2) ∧
  Z.of_nat (length (get_neighbors scenario_A 2)) = get_degree scenario_A 2 ∧
  (∀ v, v ∈ get_neighbors scenario_A 2 ↔
        is_adjacent scenario_A 2 v = Some true).
Proof.
  apply (get_neighbors_lists_adjacent scenario_A 2).
  do 4 apply constructed_add. by apply (constructed_ctor 4).
Defined.

(** X5.  How an insertion changes the degrees: on a constructed graph an
    in-range [add_edge(a,b)] between vertices that are not yet adjacent
    raises the degree of [a] and of [b] by one (a self-loop counts once)
    and leaves every other degree as it was; when [a] and [b] are already
    adjacent no degree changes. *)
Theorem add_edge_degree (g : Graph) (a b w : Z) :
  constructed g → in_range g a = true → in_range g b = true →
  get_degree (add_edge g a b) w =
  get_degree g w +
  (if bool_decide (is_adjacent g a b = Some true) then 0
   else if bool_decide (w = a ∨ w = b) then 1 else 0).
Proof.
  intros Hc Ha Hb. pose proof (constructed_wf _ Hc) as Hwf.
  unfold get_degree. rewrite in_range_add_edge.
  destruct (in_range g w) eqn:Hw.
  2: { assert (bool_decide (w = a ∨ w = b) = false) as ->
         by (apply bool_decide_eq_false_2; intros [-> | ->]; congruence).
       by case_bool_decide. }
  rewrite adj_at_add_edge_new.
  destruct (adj_at_in_range g w (wf_length _ Hwf) Hw) as [s Hs].
  rewrite Hs. simpl. unfold new_neighbours. rewrite Ha, Hb. simpl.
  case_bool_decide as Hadj.
  - assert (adjacent g b a) as Hba by by apply adjacent_sym.
    apply adjacent_iff in Hadj as (sa & Hsa & Hin).
    apply adjacent_iff in Hba as (sb & Hsb & Hin').
    rewrite Z.add_0_r. do 2 f_equal.
    destruct (decide (w = b)), (decide (w = a)); simplify_eq; set_solver.
  - assert (¬ adjacent g b a) as Hba
      by (intros ?; apply Hadj; by apply adjacent_sym).
    case_bool_decide as Hends.
    + assert ((if decide (w = b) then {[a]} else ∅) ∪
              (if decide (w = a) then {[b]} else ∅) ∪ s
              = {[ if decide (w = a) then b else a ]} ∪ s) as ->.
      { destruct (decide (w = b)), (decide (w = a)); [set_solver..|]. lia. }
      rewrite size_union, size_singleton; [lia|].
      apply disjoint_singleton_l. intros Hin.
      destruct (decide (w = a)) as [Hwa|Hwa].
      * subst w. apply Hadj, adjacent_iff. eauto.
      * assert (w = b) as Hwb by lia. subst w. apply Hba, adjacent_iff. eauto.
    + rewrite Z.add_0_r. do 2 f_equal.
      rewrite !decide_False by (intros ->; auto). set_solver.
Qed.

Lemma add_edge_degree_witness :
  get_degree (add_edge scenario_A 0 3) 3 =
  get_degree scenario_A 3 +
  (if bool_decide (is_adjacent scenario_A 0 3 = Some true) then 0
   else if bool_decide (3 = 0 ∨ 3 = 3) then 1 else 0).
Proof.
  apply (add_edge_degree scenario_A 0 3 3); [|reflexivity..].
  do 4 apply constructed_add. by apply (constructed_ctor 4).
Defined.

(** ** More on the greedy extender *)

Lemma clique_chain_snoc g clique u :
  clique_chain g (clique ++ [u]) ↔
  clique_chain g clique ∧ Forall (adjacent g u) clique.
Proof.
  unfold clique_chain. rewrite StronglySorted_app, Forall_forall. split.
  - intros (Hall & Hc & _). split; [done|]. intros v Hv.
    apply Hall; [done|]. by apply list_elem_of_singleton.
  - intros [Hc Hall]. split_and!; [|done|repeat constructor].
    intros v w Hv ->%list_elem_of_singleton. by apply Hall.
Qed.

Lemma greedy_loop_chain g vertex_order clique clique' :
  greedy_loop g vertex_order clique = Some clique' →
  clique_chain g clique → clique_chain g clique'.
Proof.
  revert clique. induction vertex_order as [|u rest IH]; intros clique; simpl.
  - by intros [= <-].
  - destruct (can_add g u clique) as [[]|] eqn:Hadd; [| |done].
    + intros Hrun Hc. apply (IH _ Hrun), clique_chain_snoc.
      split; [done|]. by apply can_add_true.
    + apply IH.
Qed.

Lemma greedy_loop_on_chain g l1 l2 :
  clique_chain g (l1 ++ l2) → greedy_loop g l2 l1 = Some (l1 ++ l2).
Proof.
  revert l1. induction l2 as [|u l2 IH]; intros l1 Hc; simpl.
  - by rewrite app_nil_r.
  - replace (l1 ++ u :: l2) with ((l1 ++ [u]) ++ l2) in * by by rewrite <- app_assoc.
    assert (can_add g u l1 = Some true) as ->.
    { apply can_add_true. unfold clique_chain in Hc.
      apply StronglySorted_app in Hc as (_ & Hc & _).
      by apply clique_chain_snoc in Hc as [_ ?]. }
    by apply IH.
Qed.

(** X6.  An ordering in which every vertex is adjacent to all the
    vertices before it is returned whole by the greedy extender; and the
    extender is idempotent: run on a clique it returned, it returns that
    clique again.  Both hold on any graph. *)
Theorem greedy_returns_cliques_unchanged (g : Graph)
    (vertex_order clique : list Z) :
  find_greedy_max_clique g vertex_order = Some clique →
  find_greedy_max_clique g clique = Some clique ∧
  (clique_chain g vertex_order → clique = vertex_order).
Proof.
  unfold find_greedy_max_clique. intros Hrun. split.
  - apply (greedy_loop_on_chain g [] clique). simpl.
    apply (greedy_loop_chain _ _ _ _ Hrun). constructor.
  - intros Hc. pose proof (greedy_loop_on_chain g [] vertex_order Hc) as Hw.
    simpl in Hw. congruence.
Qed.

Lemma greedy_returns_cliques_unchanged_witness :
  find_greedy_max_clique scenario_A [3; 2] = Some [3; 2] ∧
  (clique_chain scenario_A [3; 2; 0; 1] → [3; 2] = [3; 2; 0; 1]).
Proof.
  apply (greedy_returns_cliques_unchanged scenario_A [3; 2; 0; 1] [3; 2]).
  by vm_compute.
Defined.

Lemma greedy_from_head g (Hwf : Graph_wf g) h rest :
  all_in_range g (h :: rest) → NoDup (h :: rest) →
  ∃ tail,
    find_greedy_max_clique g (h :: rest) = Some (h :: tail) ∧
    tail `sublist_of` rest ∧
    greedy_inv g (h :: tail) ∧
    (∀ u, u ∈ h :: rest → u ∉ h :: tail →
          ∃ v, v ∈ h :: tail ∧ is_adjacent g u v = Some false).
Proof.
  intros Hord Hnd. apply Forall_cons in Hord as [Hh Hrest].
  assert (greedy_inv g [h]) as Hinv.
  { apply (greedy_inv_snoc g Hwf h [] Hh); [constructor|apply greedy_inv_nil]. }
  destruct (greedy_loop_total g Hwf rest [h] Hrest Hinv)
    as (c & Hrun & Hinv' & _ & Hmax).
  destruct (greedy_loop_sublist g _ _ _ Hrun) as (tail & -> & Hsub).
  exists tail. split_and!; [done..|].
  intros u [->|Hu]%elem_of_cons Hnot; [|by apply Hmax].
  exfalso. apply Hnot. by left.
Qed.

(** X7.  On a constructed graph and an ordering of distinct in-range
    vertices that starts with [h], the greedy clique starts with [h], has
    no repetition, continues with neighbours of [h] taken in ordering
    order, and so has at most [get_degree(h) + 1] members; when [h] has
    no neighbour it is [h] alone. *)
Theorem greedy_clique_starts_with_head (g : Graph) (h : Z) (rest : list Z) :
  constructed g → all_in_range g (h :: rest) → NoDup (h :: rest) →
  ∃ tail,
    find_greedy_max_clique g (h :: rest) = Some (h :: tail) ∧
    NoDup (h :: tail) ∧
    tail `sublist_of` rest ∧
    (∀ u, u ∈ tail → u ∈ get_neighbors g h) ∧
    Z.of_nat (length (h :: tail)) ≤ get_degree g h + 1 ∧
    (get_degree g h = 0 → tail = []).
Proof.
  intros Hwf%constructed_wf Hord Hnd.
  destruct (greedy_from_head g Hwf h rest Hord Hnd)
    as (tail & Hrun & Hsub & [_ Hadj] & _).
  assert (NoDup (h :: tail)) as Hnd'.
  { eapply sublist_NoDup; [done|]. by apply sublist_skip. }
  assert (∀ u, u ∈ tail → u ∈ get_neighbors g h) as Hnb.
  { intros u Hu. apply elem_of_get_neighbors. split.
    - by apply Forall_cons in Hord as [? _].
    - apply Hadj; [by left|by right|].
      apply NoDup_cons in Hnd' as [Hnot _]. by intros ->. }
  assert (Z.of_nat (length tail) ≤ get_degree g h) as Hlen.
  { rewrite <- get_neighbors_length. apply inj_le, submseteq_length.
    apply NoDup_submseteq; [|done]. by apply NoDup_cons in Hnd' as [_ ?]. }
  exists tail. split_and!; [done..| |].
  - simpl. lia.
  - intros Hzero. destruct tail; [done|]. simpl in Hlen. lia.
Qed.

Lemma greedy_clique_starts_with_head_witness :
  ∃ tail,
    find_greedy_max_clique scenario_A (3 :: [2; 0; 1]) = Some (3 :: tail) ∧
    NoDup (3 :: tail) ∧
    tail `sublist_of` [2; 0; 1] ∧
    (∀ u, u ∈ tail → u ∈ get_neighbors scenario_A 3) ∧
    Z.of_nat (length (3 :: tail)) ≤ get_degree scenario_A 3 + 1 ∧
    (get_degree scenario_A 3 = 0 → tail = []).
Proof.
  apply (greedy_clique_starts_with_head scenario_A 3 [2; 0; 1]).
  - do 4 apply constructed_add. by apply (constructed_ctor 4).
  - repeat constructor.
  - apply (bool_decide_unpack _). by vm_compute.
Defined.

Lemma greedy_all_vertices g (Hwf : Graph_wf g) order :
  order ≡ₚ seqZ 0 (num_vertices_ g) →
  ∃ clique,
    find_greedy_max_clique g order = Some clique ∧
    maximal_clique g clique ∧ NoDup clique ∧
    (0 < num_vertices_ g → ∃ tail, order !! 0%nat = Some (clique !!! 0%nat) ∧
                                   clique = clique !!! 0%nat :: tail).
Proof.
  intros Hperm.
  assert (NoDup order) as Hnd by (rewrite Hperm; apply NoDup_seqZ).
  assert (all_in_range g order) as Hord.
  { apply Forall_forall. intros u Hu. rewrite Hperm in Hu.
    apply elem_of_seqZ in Hu. apply in_range_spec. lia. }
  assert (∀ v, in_range g v = true → v ∈ order) as Hall.
  { intros v Hv%in_range_spec. rewrite Hperm. apply elem_of_seqZ. lia. }
  destruct order as [|h rest].
  - exists []. split_and!; [done| |constructor|].
    + split; [intros u v []%elem_of_nil|].
      intros v Hv%Hall. by apply elem_of_nil in Hv.
    + intros HN. apply Permutation_nil_l in Hperm.
      rewrite seqZ_cons in Hperm by done. done.
  - destruct (greedy_from_head g Hwf h rest Hord Hnd)
      as (tail & Hrun & Hsub & [_ Hadj] & Hmax).
    exists (h :: tail). split_and!; [done| | |].
    + split; [done|]. intros v Hv. by apply Hmax, Hall.
    + eapply sublist_NoDup; [done|]. by apply sublist_skip.
    + intros _. by exists tail.
Qed.

(** X8.  On a constructed graph every ordering that lists all the
    vertices once (the degree ordering, a shuffled [iota], a sort of all
    the vertices by score) gives a maximal clique of the graph: no vertex
    of the graph outside it is adjacent to all its members.  The clique
    has no repetition and, when the graph has a vertex, starts with the
    first vertex of the ordering. *)
Theorem greedy_on_all_vertices_is_maximal (g : Graph) (order : list Z) :
  constructed g → order ≡ₚ seqZ 0 (num_vertices_ g) →
  ∃ clique,
    find_greedy_max_clique g order = Some clique ∧
    maximal_clique g clique ∧ NoDup clique ∧
    (0 < num_vertices_ g →
     ∃ tail, order !! 0%nat = Some (clique !!! 0%nat) ∧
             clique = clique !!! 0%nat :: tail).
Proof. intros Hwf%constructed_wf. by apply greedy_all_vertices. Qed.

Lemma greedy_on_all_vertices_is_maximal_witness :
  ∃ clique,
    find_greedy_max_clique scenario_A [3; 0; 2; 1] = Some clique ∧
    maximal_clique scenario_A clique ∧ NoDup clique ∧
    (0 < num_vertices_ scenario_A →
     ∃ tail, [3; 0; 2; 1] !! 0%nat = Some (clique !!! 0%nat) ∧
             clique = clique !!! 0%nat :: tail).
Proof.
  apply (greedy_on_all_vertices_is_maximal scenario_A [3; 0; 2; 1]).
  - do 4 apply constructed_add. by apply (constructed_ctor 4).
  - apply (bool_decide_unpack _). by vm_compute.
Defined.

(** ** The trials over all the vertices *)

(** X9.  The degree-ordered trial of a constructed graph returns a
    maximal clique of the graph; when the graph has a vertex the clique
    starts with the vertex of largest degree (the smallest number among
    those).  The argument-free [find_greedy_max_clique()] returns the
    same clique: its early return on the empty graph changes nothing. *)
Theorem degree_order_trial_maximal (g : Graph) :
  constructed g →
  ∃ clique,
    degree_order_trial g = Some clique ∧
    compare_greedy.find_greedy_max_clique g = Some clique ∧
    maximal_clique g clique ∧
    (0 < num_vertices_ g →
     ∃ h tail, clique = h :: tail ∧
       ∀ v, in_range g v = true →
            get_degree g v ≤ get_degree g h ∧
            (get_degree g v = get_degree g h → h ≤ v)).
Proof.
  intros Hwf%constructed_wf.
  destruct (get_vertices_sorted_by_degree_spec g Hwf)
    as (order & Horder & Hperm & Hsorted).
  destruct (greedy_all_vertices g Hwf order Hperm)
    as (clique & Hrun & Hmax & _ & Hhead).
  exists clique. split_and!; [| |done|].
  - unfold degree_order_trial. by rewrite Horder.
  - unfold compare_greedy.find_greedy_max_clique. rewrite Horder. simpl.
    destruct (Z.eqb_spec (num_vertices_ g) 0) as [HN|]; [|done].
    rewrite HN, seqZ_nil in Hperm by done.
    apply Permutation_nil_r in Hperm. subst order. by vm_compute in Hrun.
  - intros HN. destruct (Hhead HN) as (tail & Hfirst & ->).
    exists (clique !!! 0%nat), tail. split; [done|].
    set (h := clique !!! 0%nat) in *. intros v Hv.
    assert (v ∈ order) as [j Hj]%list_elem_of_lookup_1.
    { rewrite Hperm. apply elem_of_seqZ. apply in_range_spec in Hv. lia. }
    destruct j as [|j]; [assert (h = v) by congruence; subst; lia|].
    specialize (Hsorted 0%nat (S j) h v ltac:(lia) Hfirst Hj).
    unfold degree_before in Hsorted. lia.
Qed.

Lemma degree_order_trial_maximal_witness :
  ∃ clique,
    degree_order_trial scenario_A = Some clique ∧
    compare_greedy.find_greedy_max_clique scenario_A = Some clique ∧
    maximal_clique scenario_A clique ∧
    (0 < num_vertices_ scenario_A →
     ∃ h tail, clique = h :: tail ∧
       ∀ v, in_range scenario_A v = true →
            get_degree scenario_A v ≤ get_degree scenario_A h ∧
            (get_degree scenario_A v = get_degree scenario_A h → h ≤ v)).
Proof.
  apply (degree_order_trial_maximal scenario_A).
  do 4 apply constructed_add. by apply (constructed_ctor 4).
Defined.

Lemma after_draws_S {Gen A} (draw : Gen → A * Gen) k gen :
  after_draws draw (S k) gen = after_draws draw k (draw gen).2.
Proof. unfold after_draws. by rewrite Nat.iter_succ_r. Qed.

Lemma weigh_draws {Gen Real} (noise_dist : Gen → Real * Gen)
    (of_int : Z → Real) (real_add : Real → Real → Real)
    degrees neighbors gen weighted gen' :
  weight_neighborhood.weigh noise_dist of_int real_add degrees neighbors gen
    = Some (weighted, gen') →
  gen' = after_draws noise_dist (length neighbors) gen.
Proof.
  revert gen weighted. induction neighbors as [|u rest IH];
    intros gen weighted.
  - by intros [= _ <-].
  - change (length (u :: rest)) with (S (length rest)).
    rewrite after_draws_S. simpl.
    destruct (vec_at degrees u); [|done].
    destruct (noise_dist gen) as [noise gen1]. simpl.
    destruct (weight_neighborhood.weigh _ _ _ _ rest gen1)
      as [[tail gen2]|] eqn:Hrest; [|done].
    intros [= _ <-]. by eapply IH.
Qed.

(** X10.  The randomised trials over all the vertices.  On a constructed
    graph the shuffled trial returns a maximal clique of the graph,
    provided [std::shuffle] permutes its range; the noisy weighted trial
    returns a maximal clique of the graph whatever values the noise
    takes (only that sorting rearranges the scored vertices is used), and
    draws from its engine once per vertex. *)
Theorem randomised_trials_maximal
    {Gen Real : Type} (shuffle : list Z → Gen → list Z * Gen)
    (noise_dist : Gen → Real * Gen) (of_int : Z → Real)
    (real_add : Real → Real → Real) (real_lt : Real → Real → bool)
    (g : Graph) (gen : Gen) :
  constructed g →
  (∀ l s, (shuffle l s).1 ≡ₚ l) →
  (∃ clique, shuffle_trial shuffle g gen = Some clique ∧
             maximal_clique g clique ∧ NoDup clique) ∧
  (∃ clique gen',
      greedy_weight.trial noise_dist of_int real_add real_lt g
        (weight_neighborhood.global_degrees g) gen = Some (clique, gen') ∧
      maximal_clique g clique ∧ NoDup clique ∧
      gen' = after_draws noise_dist (Z.to_nat (num_vertices_ g)) gen).
Proof.
  intros Hwf%constructed_wf Hshuffle. split.
  - unfold shuffle_trial, get_num_vertices.
    destruct (greedy_all_vertices g Hwf
                (shuffle (seqZ 0 (num_vertices_ g)) gen).1 (Hshuffle _ _))
      as (clique & Hrun & Hmax & Hnd & _).
    by exists clique.
  - unfold greedy_weight.trial.
    assert (Z.of_nat (length (weight_neighborhood.global_degrees g))
            = num_vertices_ g) as Hlen.
    { unfold weight_neighborhood.global_degrees, get_num_vertices.
      rewrite length_fmap, length_seqZ. pose proof (wf_nonneg _ Hwf). lia. }
    rewrite Hlen.
    destruct (weigh_total noise_dist of_int real_add
                (weight_neighborhood.global_degrees g)
                (seqZ 0 (num_vertices_ g)) gen)
      as (weighted & gen' & Hweigh & Hsnd).
    { apply Forall_forall. intros u Hu%elem_of_seqZ.
      rewrite (vec_at_global_degrees g) by (apply in_range_spec; lia).
      by eexists. }
    rewrite Hweigh.
    destruct (greedy_all_vertices g Hwf
                (weight_neighborhood.sort_descending real_lt weighted).*2)
      as (clique & -> & Hmax & Hnd & _).
    { by rewrite sort_descending_Permutation, Hsnd. }
    exists clique, gen'. split_and!; [done..|].
    apply weigh_draws in Hweigh. by rewrite length_seqZ in Hweigh.
Qed.

Lemma randomised_trials_maximal_witness :
  (∃ clique,
      shuffle_trial (λ l (s : Z), (reverse l, s)) scenario_A 0 = Some clique ∧
      maximal_clique scenario_A clique ∧ NoDup clique) ∧
  (∃ clique gen',
      greedy_weight.trial (λ gen : Z, (gen, gen + 1)) id Z.add Z.ltb
        scenario_A (weight_neighborhood.global_degrees scenario_A) 0
        = Some (clique, gen') ∧
      maximal_clique scenario_A clique ∧ NoDup clique ∧
      gen' = after_draws (λ gen : Z, (gen, gen + 1))
               (Z.to_nat (num_vertices_ scenario_A)) 0).
Proof.
  apply (randomised_trials_maximal (λ l (s : Z), (reverse l, s))
           (λ gen : Z, (gen, gen + 1)) id Z.add Z.ltb scenario_A 0).
  - do 4 apply constructed_add. by apply (constructed_ctor 4).
  - intros l s. simpl. apply reverse_Permutation.
Defined.

(** ** More on the best-clique holder *)

Lemma offer_checked_best h seen c :
  holder_inv h → seen ∈ stored h →
  best_clique (offer_checked seen c h) = offer_locked (best_clique h) c.
Proof.
  intros [_ Hstored] Hseen. rewrite Forall_forall in Hstored.
  specialize (Hstored _ Hseen). unfold offer_checked, offer_locked.
  destruct (Nat.ltb_spec (length (best_clique h)) (length c)) as [Hlt|Hge].
  - destruct (Nat.ltb_spec seen (length c)); [done|lia].
  - by destruct (seen <? length c)%nat.
Qed.

Lemma run_checked_best h completion h' :
  holder_inv h → run_checked h completion h' →
  best_clique h' = foldl offer_locked (best_clique h) completion ∧
  holder_inv h'.
Proof.
  intros Hinv Hrun. induction Hrun as [h|h1 h2 h3 c rest Hstep _ IH].
  - done.
  - destruct (offer_step_inv _ _ _ Hinv Hstep) as [Hinv2 _].
    destruct (IH Hinv2) as [-> Hinv3]. split; [|done]. simpl. f_equal.
    destruct Hstep as [h c seen Hseen]. by apply offer_checked_best.
Qed.

(** X11.  The atomic pre-check changes nothing in the result: whatever
    values the relaxed loads return, a run of the holder with the
    pre-check ends with the clique that the plain update under the mutex
    computes for the same completion order, and [max_size] is its
    size. *)
Theorem checked_run_agrees_with_locked (completion : list (list Z))
    (h : holder) :
  run_checked holder_init completion h →
  best_clique h = run_locked completion ∧
  max_size h = length (run_locked completion).
Proof.
  intros Hrun.
  destruct (run_checked_best _ _ _ holder_init_inv Hrun) as [Hbest [Hsize _]].
  split; [done|]. by rewrite Hsize, Hbest.
Qed.

Lemma checked_run_agrees_with_locked_witness :
  best_clique (offer_checked 0 [3] (offer_checked 0 [2; 0] holder_init))
    = run_locked [[2; 0]; [3]] ∧
  max_size (offer_checked 0 [3] (offer_checked 0 [2; 0] holder_init))
    = length (run_locked [[2; 0]; [3]]).
Proof.
  apply (checked_run_agrees_with_locked [[2; 0]; [3]]).
  eapply run_checked_cons; [apply (offer_step_seen _ _ 0%nat); by left|].
  eapply run_checked_cons; [apply (offer_step_seen _ _ 0%nat)|constructor].
  right. by left.
Defined.

Lemma foldl_offer_locked_shorter best l (n : nat) :
  (length best < n)%nat → (∀ c', c' ∈ l → (length c' < n)%nat) →
  (length (foldl offer_locked best l) < n)%nat.
Proof.
  revert best. induction l as [|c' l IH]; intros best Hb Hl; simpl; [done|].
  apply IH.
  - rewrite offer_locked_length. specialize (Hl c' ltac:(by left)). lia.
  - intros c'' Hc. apply Hl. by right.
Qed.

Lemma foldl_offer_locked_keeps c l :
  (∀ c', c' ∈ l → (length c' ≤ length c)%nat) → foldl offer_locked c l = c.
Proof.
  induction l as [|c' l IH]; intros Hl; simpl; [done|].
  unfold offer_locked at 2.
  destruct (Nat.ltb_spec (length c) (length c')) as [Hlt|_].
  - specialize (Hl c' ltac:(by left)). lia.
  - apply IH. intros c'' Hc. apply Hl. by right.
Qed.

(** X12.  Ties go to the first writer: the held clique after a run is
    the first clique, in completion order, of the largest size (strictly
    larger than every clique offered before it, at least as large as
    every clique offered after it). *)
Theorem first_largest_clique_is_held (l1 l2 : list (list Z)) (c : list Z) :
  (∀ c', c' ∈ l1 → (length c' < length c)%nat) →
  (∀ c', c' ∈ l2 → (length c' ≤ length c)%nat) →
  run_locked (l1 ++ c :: l2) = c.
Proof.
  intros Hbefore Hafter. unfold run_locked. rewrite foldl_app. simpl.
  assert (offer_locked (foldl offer_locked [] l1) c = c) as ->.
  { unfold offer_locked at 1.
    destruct (Nat.ltb_spec (length (foldl offer_locked [] l1)) (length c))
      as [|Hge]; [done|].
    destruct l1 as [|c1 l1].
    - simpl in *. symmetry. apply nil_length_inv. lia.
    - specialize (Hbefore c1 ltac:(by left)) as Hc1.
      pose proof (foldl_offer_locked_shorter [] (c1 :: l1) (length c)
                    ltac:(simpl; lia) Hbefore). lia. }
  by apply foldl_offer_locked_keeps.
Qed.

Lemma first_largest_clique_is_held_witness :
  run_locked ([[3]] ++ [2; 0] :: [[0; 1]; [1]]) = [2; 0].
Proof.
  apply (first_largest_clique_is_held [[3]] [[0; 1]; [1]] [2; 0]).
  - intros c' ->%list_elem_of_singleton. simpl. lia.
  - intros c' [->| ->%list_elem_of_singleton]%elem_of_cons; simpl; lia.
Defined.

(** ** More on the loader *)

Lemma ignored_line_not_header line :
  ignored_line line = true → starts_with "p" line = false.
Proof.
  unfold ignored_line, starts_with.
  intros [H|H]%orb_true_iff; apply bool_decide_eq_true in H;
    apply bool_decide_eq_false; by rewrite H.
Qed.

Lemma ignored_line_skipped line :
  ignored_line line = true → parse_edge_line line = skip_line.
Proof. unfold ignored_line, parse_edge_line. by intros ->. Qed.

Lemma find_header_filter lines :
  find_header (filter (λ l, ignored_line l = false) lines) =
  ((find_header lines).1,
   filter (λ l, ignored_line l = false) (find_header lines).2).
Proof.
  induction lines as [|line rest IH]; [done|].
  destruct (ignored_line line) eqn:Hline.
  - rewrite filter_cons_False by by rewrite Hline.
    simpl. by rewrite (ignored_line_not_header _ Hline).
  - rewrite filter_cons_True by done. simpl.
    by destruct (starts_with "p" line).
Qed.

Lemma read_edges_filter g lines :
  read_edges g (filter (λ l, ignored_line l = false) lines) =
  read_edges g lines.
Proof.
  revert g. induction lines as [|line rest IH]; intros g; [done|].
  destruct (ignored_line line) eqn:Hline.
  - rewrite filter_cons_False by by rewrite Hline.
    simpl. by rewrite (ignored_line_skipped _ Hline).
  - rewrite filter_cons_True by done. simpl.
    destruct (parse_edge_line line); by rewrite ?IH.
Qed.

Lemma load_dimacs_graph_unfold variant lines :
  load_dimacs_graph variant lines =
  let n := (find_header lines).1 in
  let construct :=
    match Graph_ctor n with
    | None => Threw "std::length_error"
    | Some g =>
        match read_edges g (find_header lines).2 with
        | Some g' => Returned g' []
        | None => Undefined
        end
    end in
  match variant with
  | check_with_diagnostic =>
      if n =? 0 then Exited 1 [invalid_format] else construct
  | check_silent => if n =? 0 then Exited 1 [] else construct
  | no_check => construct
  end.
Proof. unfold load_dimacs_graph. by destruct (find_header lines). Qed.

(** X13.  Comment lines and empty lines carry no information: removing
    every line that is empty or starts with [c], anywhere in the file,
    leaves the outcome of the loader unchanged, in each of its
    variants. *)
Theorem loader_ignores_comments (variant : header_check)
    (lines : list string) :
  load_dimacs_graph variant (filter (λ l, ignored_line l = false) lines) =
  load_dimacs_graph variant lines.
Proof.
  rewrite !load_dimacs_graph_unfold, find_header_filter. simpl.
  destruct (Graph_ctor (find_header lines).1) as [g|]; [|done].
  by rewrite read_edges_filter.
Qed.



Lemma find_header_at pre header rest :
  Forall (λ line, starts_with "p" line = false) pre →
  starts_with "p" header = true →
  find_header (pre ++ header :: rest) = (parse_header header, rest).
Proof. intros Hpre Hh. rewrite find_header_skip by done. simpl. by rewrite Hh. Qed.



Lemma read_edges_foldl g lines :
  Forall (λ l, parse_edge_line l ≠ unset_endpoint) lines →
  read_edges g lines = Some (foldl apply_edge_line g lines).
Proof.
  intros Hall. revert g.
  induction Hall as [|line rest Hline _ IH]; intros g; [done|].
  simpl. unfold apply_edge_line at 2.
  destruct (parse_edge_line line); [apply IH..|done].
Qed.

Lemma num_vertices_foldl_apply_edge_line g lines :
  num_vertices_ (foldl apply_edge_line g lines) = num_vertices_ g.
Proof.
  revert g. induction lines as [|line rest IH]; intros g; simpl; [done|].
  rewrite IH. unfold apply_edge_line.
  destruct (parse_edge_line line); by rewrite ?num_vertices_add_edge.
Qed.

(** X15.  A file whose header gives a positive vertex count [n] and
    whose edge lines all assign both endpoints is loaded, in every
    variant of the loader: the graph has [n] vertices, one adjacency set
    per vertex, is the result of the [add_edge] calls of the edge lines in
    file order, and stores only in-range neighbours, whatever numbers the
    edge lines contain. *)
Theorem loader_returns_graph_of_header_size (variant : header_check)
    (lines : list string) :
  0 < (find_header lines).1 →
  Forall (λ l, parse_edge_line l ≠ unset_endpoint) (find_header lines).2 →
  ∃ g,
    load_dimacs_graph variant lines = Returned g [] ∧
    g = foldl apply_edge_line
          (mkGraph (find_header lines).1
             (replicate (Z.to_nat (find_header lines).1) ∅))
          (find_header lines).2 ∧
    num_vertices_ g = (find_header lines).1 ∧
    length (adj_list_ g) = Z.to_nat (find_header lines).1 ∧
    (∀ u v, v ∈ get_neighbors g u →
            in_range g u = true ∧ in_range g v = true).
Proof.
  intros Hn Hall. rewrite load_dimacs_graph_unfold. simpl.
  set (n := (find_header lines).1) in *.
  set (g0 := mkGraph n (replicate (Z.to_nat n) ∅)).
  assert (Graph_ctor n = Some g0) as Hg0.
  { unfold Graph_ctor. by rewrite decide_True by lia. }
  rewrite Hg0, (read_edges_foldl g0 _ Hall).
  assert ((n =? 0) = false) as Hnz by lia.
  exists (foldl apply_edge_line g0 (find_header lines).2).
  destruct (read_edges_adjacent g0 (find_header lines).2 _
              (Graph_ctor_wf _ _ Hg0) (read_edges_foldl g0 _ Hall))
    as (Hwf & Hrange & _).
  split_and!.
  - destruct variant; by rewrite ?Hnz.
  - done.
  - apply num_vertices_foldl_apply_edge_line.
  - by rewrite (wf_length _ Hwf), num_vertices_foldl_apply_edge_line.
  - intros u v [Hu Hadj]%elem_of_get_neighbors. split; [done|].
    apply adjacent_iff in Hadj as (s & Hs & Hv). by eapply wf_members.
Qed.

Lemma loader_returns_graph_of_header_size_witness :
  ∃ g,
    load_dimacs_graph no_check scenario_A_file = Returned g [] ∧
    g = foldl apply_edge_line
          (mkGraph (find_header scenario_A_file).1
             (replicate (Z.to_nat (find_header scenario_A_file).1) ∅))
          (find_header scenario_A_file).2 ∧
    num_vertices_ g = (find_header scenario_A_file).1 ∧
    length (adj_list_ g) = Z.to_nat (find_header scenario_A_file).1 ∧
    (∀ u v, v ∈ get_neighbors g u →
            in_range g u = true ∧ in_range g v = true).
Proof.
  apply (loader_returns_graph_of_header_size no_check scenario_A_file).
  - by vm_compute.
  - repeat constructor; by vm_compute.
Defined.

Lemma parse_edge_line_header line :
  starts_with "p" line = true → parse_edge_line line = skip_line.
Proof.
  destruct line as [|c l]; [done|]. unfold starts_with. simpl.
  intros [= ->]%bool_decide_eq_true. reflexivity.
Qed.

Lemma read_edges_filter_headers g lines :
  read_edges g (filter (λ l, starts_with "p" l = false) lines) =
  read_edges g lines.
Proof.
  revert g. induction lines as [|line rest IH]; intros g; [done|].
  destruct (starts_with "p" line) eqn:Hline.
  - rewrite filter_cons_False by by rewrite Hline.
    simpl. by rewrite (parse_edge_line_header _ Hline).
  - rewrite filter_cons_True by done. simpl.
    destruct (parse_edge_line line); by rewrite ?IH.
Qed.

(** X16.  Only the first line that starts with [p] is a header: every
    later one is passed over by the second loop, so the vertex count of
    the graph cannot change once it is set, and removing those lines
    leaves the outcome of the loader unchanged. *)
Theorem loader_ignores_later_headers (variant : header_check)
    (pre : list string) (header : string) (rest : list string) :
  Forall (λ line, starts_with "p" line = false) pre →
  starts_with "p" header = true →
  load_dimacs_graph variant
    (pre ++ header :: filter (λ l, starts_with "p" l = false) rest) =
  load_dimacs_graph variant (pre ++ header :: rest).
Proof.
  intros Hpre Hh.
  rewrite !load_dimacs_graph_unfold, !find_header_at by done. simpl.
  destruct (Graph_ctor (parse_header header)) as [g|]; [|done].
  by rewrite read_edges_filter_headers.
Qed.

Lemma loader_ignores_later_headers_witness :
  load_dimacs_graph check_silent
    ([] ++ "p edge 3 2"%string ::
       filter (λ l, starts_with "p" l = false)
         ["e 1 2"%string; "p edge 9 9"%string; "e 2 3"%string]) =
  load_dimacs_graph check_silent
    ([] ++ "p edge 3 2"%string ::
       ["e 1 2"%string; "p edge 9 9"%string; "e 2 3"%string]).
Proof.
  apply (loader_ignores_later_headers check_silent [] "p edge 3 2"%string
           ["e 1 2"%string; "p edge 9 9"%string; "e 2 3"%string]).
  - constructor.
  - reflexivity.
Defined.

Lemma extract_int_sentry s1 s2 :
  sentry s1 = sentry s2 → extract_int s1 = extract_int s2.
Proof. unfold extract_int. by intros ->. Qed.

(** X17.  The letter [e] is optional on an edge line: when a line
    without it is read as the edge [(u,v)], the same line after [e] and
    a blank is read as the same edge. *)
Theorem edge_letter_is_optional (line : string) (u v : Z) :
  starts_with "e" line = false →
  parse_edge_line line = edge_call u v →
  parse_edge_line (String "e" (String " " line)) = edge_call u v.
Proof.
  intros He. unfold parse_edge_line at 1. rewrite He.
  destruct (bool_decide (first_char line = None) || starts_with "c" line);
    [done|].
  assert (extract_int (extract_char (stream_of
            (String "e" (String " " line)))).2
          = extract_int (stream_of line)) as Hsame
    by by apply extract_int_sentry.
  unfold parse_edge_line.
  change (bool_decide (first_char (String "e" (String " " line)) = None)
          || starts_with "c" (String "e" (String " " line))) with false.
  change (starts_with "e" (String "e" (String " " line))) with true.
  cbv iota. rewrite Hsame.
  destruct (extract_int (stream_of line)) as [ou s1].
  destruct (extract_int s1) as [ov s2].
  destruct (failbit s2); [done|]. by destruct ou, ov.
Qed.

Lemma edge_letter_is_optional_witness :
  parse_edge_line (String "e" (String " " "3 4")) = edge_call 2 3.
Proof. apply (edge_letter_is_optional "3 4" 2 3); reflexivity. Defined.

(** ** Printing and reading numbers *)

Lemma decimal_snoc ds c : decimal (ds ++ [c]) = 10 * decimal ds + digit_value c.
Proof. unfold decimal. by rewrite foldl_app. Qed.

Lemma pretty_N_char_digit d :
  (d < 10)%N →
  is_digit (pretty_N_char d) = true ∧ digit_value (pretty_N_char d) = Z.of_N d.
Proof.
  intros Hd.
  assert (d = 0 ∨ d = 1 ∨ d = 2 ∨ d = 3 ∨ d = 4 ∨ d = 5 ∨ d = 6 ∨ d = 7
          ∨ d = 8 ∨ d = 9)%N as Hcases by lia.
  destruct Hcases as [->|[->|[->|[->|[->|[->|[->|[->|[->| ->]]]]]]]]];
    by vm_compute.
Qed.

Lemma chars_pretty_N_go x s :
  ∃ ds, list_ascii_of_string (pretty_N_go x s) = ds ++ list_ascii_of_string s ∧
        Forall (λ c, is_digit c = true) ds ∧
        decimal ds = Z.of_N x ∧
        ((0 < x)%N → ds ≠ []).
Proof.
  revert s. induction (N.lt_wf_0 x) as [x _ IH]; intros s.
  destruct (decide (x = 0)%N) as [->|Hx].
  - exists []. rewrite pretty_N_go_0. split_and!; [done|constructor|done|lia].
  - rewrite pretty_N_go_step by lia.
    destruct (IH (x `div` 10)%N ltac:(apply N.div_lt; lia)
                (String (pretty_N_char (x `mod` 10)) s))
      as (ds & Hds & Hdig & Hdec & _).
    destruct (pretty_N_char_digit (x `mod` 10)%N) as [Hd Hv];
      [by apply N.mod_lt|].
    exists (ds ++ [pretty_N_char (x `mod` 10)]). split_and!.
    + rewrite Hds. simpl. by rewrite <- app_assoc.
    + apply Forall_app. split; [done|]. by constructor.
    + rewrite decimal_snoc, Hdec, Hv.
      rewrite (N.div_mod x 10) at 3 by done. lia.
    + intros _. by destruct ds.
Qed.

Lemma print_int_digits n :
  ∃ ds, ds ≠ [] ∧ Forall (λ c, is_digit c = true) ds ∧
        decimal ds = Z.abs n ∧
        print_int n = if n <? 0 then "-"%char :: ds else ds.
Proof.
  assert (∀ p, ∃ ds, ds ≠ [] ∧ Forall (λ c, is_digit c = true) ds ∧
                     decimal ds = Z.pos p ∧
                     list_ascii_of_string (pretty (N.pos p)) = ds) as Hpos.
  { intros p. unfold pretty, pretty_N. rewrite decide_False by done.
    destruct (chars_pretty_N_go (N.pos p) "") as (ds & Hds & Hdig & Hdec & Hne).
    exists ds. simpl in Hds. rewrite app_nil_r in Hds.
    split_and!; [apply Hne; lia|done|by rewrite Hdec|done]. }
  unfold print_int. destruct n as [|p|p].
  - exists ["0"%char]. split_and!; [done|by repeat constructor|done..].
  - destruct (Hpos p) as (ds & ? & ? & ? & ?). by exists ds.
  - destruct (Hpos p) as (ds & ? & ? & ? & Hds). exists ds.
    split_and!; [done..|]. simpl. f_equal. exact Hds.
Qed.

Lemma span_digits ds rest :
  Forall (λ c, is_digit c = true) ds → ends_number rest →
  span is_digit (ds ++ rest) = (ds, rest).
Proof.
  intros Hds Hrest. induction Hds as [|c ds Hc _ IH]; simpl.
  - destruct rest as [|c rest]; [done|]. simpl in *. by rewrite Hrest.
  - by rewrite Hc, IH.
Qed.

Lemma is_digit_not_space c : is_digit c = true → is_space c = false.
Proof.
  unfold is_digit, is_space.
  intros [H1 H2]%andb_true_iff. apply N.leb_le in H1, H2.
  apply orb_false_iff. split.
  - apply N.eqb_neq. lia.
  - apply andb_false_iff. right. apply N.leb_gt. lia.
Qed.

Lemma extract_int_digits (negative : bool) ds rest :
  ds ≠ [] → Forall (λ c, is_digit c = true) ds → ends_number rest →
  INT_MIN ≤ (if negative then - decimal ds else decimal ds) ≤ INT_MAX →
  extract_int
    (mkStream ((if negative then "-"%char :: ds else ds) ++ rest) false) =
  (Some (if negative then - decimal ds else decimal ds),
   mkStream rest false).
Proof.
  intros Hne Hds Hrest Hrange.
  destruct ds as [|d ds]; [done|]. pose proof Hds as Hds'.
  apply Forall_cons in Hds' as [Hd _].
  pose proof (is_digit_not_space d Hd) as Hsp.
  pose proof (span_digits (d :: ds) rest Hds Hrest) as Hspan.
  unfold extract_int, sentry. set (sp := span is_digit) in *.
  destruct negative.
  - simpl. change (d :: ds ++ rest) with ((d :: ds) ++ rest). rewrite Hspan.
    destruct (Z.ltb_spec INT_MAX (- decimal (d :: ds))); [lia|].
    destruct (Z.ltb_spec (- decimal (d :: ds)) INT_MIN); [lia|]. done.
  - simpl. rewrite Hsp.
    assert (match d :: ds ++ rest with
            | "-"%char :: r => (true, r)
            | "+"%char :: r => (false, r)
            | _ => (false, d :: ds ++ rest)
            end = (false, (d :: ds) ++ rest)) as ->.
    { clear -Hd. destruct d as [[] [] [] [] [] [] [] []];
        first [discriminate Hd | reflexivity]. }
    rewrite Hspan.
    destruct (Z.ltb_spec INT_MAX (decimal (d :: ds))); [lia|].
    destruct (Z.ltb_spec (decimal (d :: ds)) INT_MIN); [lia|]. done.
Qed.

Lemma extract_int_print_int n rest :
  INT_MIN ≤ n ≤ INT_MAX → ends_number rest →
  extract_int (mkStream (print_int n ++ rest) false) =
  (Some n, mkStream rest false).
Proof.
  intros Hn Hrest.
  destruct (print_int_digits n) as (ds & Hne & Hds & Hdec & ->).
  rewrite (extract_int_digits (n <? 0) ds rest Hne Hds Hrest);
    destruct (Z.ltb_spec n 0); rewrite ?Hdec; try lia; by f_equal; f_equal; lia.
Qed.

(** X18.  Numbers survive printing and reading: an [int] written with
    [<<] and followed by the end of the line or by a character that is
    not a digit is read back by [>>] as the same value, and the stream is
    left, without failure, at what follows the number. *)
Theorem printed_int_is_read_back (n : Z) (rest : list ascii) :
  INT_MIN ≤ n ≤ INT_MAX → ends_number rest →
  extract_int (mkStream (print_int n ++ rest) false) =
  (Some n, mkStream rest false).
Proof. apply extract_int_print_int. Qed.

Lemma printed_int_is_read_back_witness :
  extract_int (mkStream (print_int (-42) ++ [" "; "7"]%char) false) =
  (Some (-42), mkStream [" "; "7"]%char false).
Proof.
  apply (printed_int_is_read_back (-42) [" "; "7"]%char); [|reflexivity].
  unfold INT_MIN, INT_MAX. lia.
Defined.

Lemma extract_int_skip_blank l :
  extract_int (mkStream (" "%char :: l) false) =
  extract_int (mkStream l false).
Proof. by apply extract_int_sentry. Qed.

Lemma parse_edge_line_e rest :
  parse_edge_line (String "e" rest) =
  let (u, s2) := extract_int (mkStream (list_ascii_of_string rest) false) in
  let (v, _) := extract_int s2 in
  match u, v with
  | Some u, Some v => edge_call (to_zero_based u) (to_zero_based v)
  | _, _ => unset_endpoint
  end.
Proof. reflexivity. Qed.

Lemma parse_dimacs_edge_line a b :
  INT_MIN ≤ a ≤ INT_MAX → INT_MIN ≤ b ≤ INT_MAX →
  parse_edge_line (dimacs_edge_line a b) =
  edge_call (to_zero_based a) (to_zero_based b).
Proof.
  intros Ha Hb. unfold dimacs_edge_line.
  change (string_of_list_ascii ("e"%char :: ?l))
    with (String "e" (string_of_list_ascii l)).
  rewrite parse_edge_line_e, list_ascii_of_string_of_list_ascii.
  rewrite extract_int_skip_blank, extract_int_print_int by done.
  rewrite extract_int_skip_blank.
  rewrite <- (app_nil_r (print_int b)), extract_int_print_int by done.
  done.
Qed.

Lemma span_not_space tag rest :
  Forall (λ c, is_space c = false) tag →
  span (λ c, negb (is_space c)) (tag ++ " "%char :: rest) =
  (tag, " "%char :: rest).
Proof.
  induction 1 as [|c tag Hc _ IH]; simpl; [done|]. by rewrite Hc, IH.
Qed.

Lemma parse_dimacs_header_line tag n m :
  tag ≠ [] → Forall (λ c, is_space c = false) tag →
  INT_MIN ≤ n ≤ INT_MAX →
  starts_with "p" (dimacs_header_line tag n m) = true ∧
  parse_header (dimacs_header_line tag n m) = n.
Proof.
  intros Hne Htag Hn. split; [done|].
  unfold parse_header, dimacs_header_line, stream_of.
  rewrite list_ascii_of_string_of_list_ascii.
  destruct tag as [|t tag]; [done|]. pose proof Htag as Htag'.
  apply Forall_cons in Htag' as [Ht _].
  pose proof (span_not_space (t :: tag)
                (print_int n ++ " "%char :: print_int m) Htag) as Hspan.
  set (sp := span (λ c, negb (is_space c))) in *.
  assert (extract_string
            (mkStream ("p"%char :: " "%char :: (t :: tag) ++
                       " "%char :: print_int n ++ " "%char :: print_int m)
               false)
          = (Some ["p"%char],
             mkStream (" "%char :: (t :: tag) ++
                       " "%char :: print_int n ++ " "%char :: print_int m)
               false)) as ->.
  { unfold extract_string, sentry. subst sp. reflexivity. }
  unfold extract_string at 1, sentry. simpl. rewrite Ht.
  change (t :: tag ++ ?l) with ((t :: tag) ++ l). fold sp.
  rewrite Hspan. simpl.
  rewrite extract_int_skip_blank, extract_int_print_int by done. done.
Qed.

(** X19.  Lines written in the DIMACS form are read as written: the
    header line [p <tag> n m], for any tag without blanks, gives the
    vertex count [n]; the edge line [e a b] gives the call
    [add_edge(a-1, b-1)] for positive [a] and [b], so that the edge
    between the vertices [u] and [v], written with the 1-based numbers
    the programs print ([u+1] and [v+1]), is read back as
    [add_edge(u, v)]. *)
Theorem dimacs_lines_are_read_as_written
    (tag : list ascii) (n m u v : Z) :
  tag ≠ [] → Forall (λ c, is_space c = false) tag →
  INT_MIN ≤ n ≤ INT_MAX →
  0 ≤ u < INT_MAX → 0 ≤ v < INT_MAX →
  find_header [dimacs_header_line tag n m; dimacs_edge_line (u + 1) (v + 1)]
    = (n, [dimacs_edge_line (u + 1) (v + 1)]) ∧
  parse_edge_line (dimacs_edge_line (u + 1) (v + 1)) = edge_call u v.
Proof.
  intros Hne Htag Hn Hu Hv.
  destruct (parse_dimacs_header_line tag n m Hne Htag Hn) as [Hp Hparse].
  split.
  - cbn [find_header]. by rewrite Hp, Hparse.
  - rewrite parse_dimacs_edge_line by (unfold INT_MIN, INT_MAX in *; lia).
    unfold to_zero_based.
    destruct (Z.ltb_spec 0 (u + 1)), (Z.ltb_spec 0 (v + 1)); try lia.
    f_equal; lia.
Qed.

Lemma dimacs_lines_are_read_as_written_witness :
  find_header [dimacs_header_line ["e"; "d"; "g"; "e"]%char 4 4;
               dimacs_edge_line (2 + 1) (3 + 1)]
    = (4, [dimacs_edge_line (2 + 1) (3 + 1)]) ∧
  parse_edge_line (dimacs_edge_line (2 + 1) (3 + 1)) = edge_call 2 3.
Proof.
  apply (dimacs_lines_are_read_as_written ["e"; "d"; "g"; "e"]%char 4 4 2 3).
  - done.
  - by repeat constructor.
  - unfold INT_MIN, INT_MAX. lia.
  - unfold INT_MAX. lia.
  - unfold INT_MAX. lia.
Defined.

Lemma read_edges_written g edges :
  Forall (λ e : Z * Z, 0 ≤ e.1 < INT_MAX ∧ 0 ≤ e.2 < INT_MAX) edges →
  read_edges g ((λ e, dimacs_edge_line (e.1 + 1) (e.2 + 1)) <$> edges) =
  Some (foldl (λ g e, add_edge g e.1 e.2) g edges).
Proof.
  intros Hall. revert g.
  induction Hall as [|[u v] edges [Hu Hv] _ IH]; intros g; [done|].
  rewrite fmap_cons. cbn [read_edges foldl fst snd].
  rewrite parse_dimacs_edge_line by (unfold INT_MIN, INT_MAX in *; simpl in *; lia).
  unfold to_zero_based. simpl in Hu, Hv.
  destruct (Z.ltb_spec 0 (u + 1)), (Z.ltb_spec 0 (v + 1)); try lia.
  replace (u + 1 - 1) with u by lia. replace (v + 1 - 1) with v by lia.
  apply IH.
Qed.

(** X20.  Round trip through a file: a graph on [n] vertices with a list
    of edges, written as a DIMACS file (header line, then one line
    [e u+1 v+1] per edge), is loaded by every variant of the loader as
    the graph that [Graph g(n)] and the [add_edge] calls for those edges
    build directly. *)
Theorem written_graph_is_loaded (variant : header_check) (n : Z)
    (edges : list (Z * Z)) :
  0 < n ≤ INT_MAX →
  Forall (λ e : Z * Z, 0 ≤ e.1 < INT_MAX ∧ 0 ≤ e.2 < INT_MAX) edges →
  load_dimacs_graph variant (write_dimacs n edges) =
  Returned (graph_of_edges n edges) [].
Proof.
  intros Hn Hedges. rewrite load_dimacs_graph_unfold.
  assert (find_header (write_dimacs n edges) =
          (n, (λ e, dimacs_edge_line (e.1 + 1) (e.2 + 1)) <$> edges)) as ->.
  { unfold write_dimacs. cbn [find_header].
    destruct (parse_dimacs_header_line ["e"; "d"; "g"; "e"]%char n
                (Z.of_nat (length edges))) as [-> ->];
      [done|by repeat constructor|unfold INT_MIN; lia|done]. }
  cbn [fst snd]. cbv zeta.
  assert (Graph_ctor n = Some (mkGraph n (replicate (Z.to_nat n) ∅))) as ->.
  { unfold Graph_ctor. by rewrite decide_True by lia. }
  rewrite read_edges_written by done.
  assert ((n =? 0) = false) as -> by lia. by destruct variant.
Qed.

Lemma written_graph_is_loaded_witness :
  load_dimacs_graph check_with_diagnostic
    (write_dimacs 4 [(0, 1); (0, 2); (1, 2); (2, 3)]) =
  Returned (graph_of_edges 4 [(0, 1); (0, 2); (1, 2); (2, 3)]) [].
Proof.
  apply (written_graph_is_loaded check_with_diagnostic 4
           [(0, 1); (0, 2); (1, 2); (2, 3)]).
  - unfold INT_MAX. lia.
  - unfold INT_MAX. repeat constructor; simpl; lia.
Defined.

(** ** The generator, pair by pair *)

Lemma for_each_seqZ {S} (P : Z → S → Prop) (body : Z → S → option S)
    (a len : Z) (s : S) :
  0 ≤ len → P a s →
  (∀ i s, a ≤ i < a + len → P i s → ∃ s', body i s = Some s' ∧ P (i + 1) s') →
  ∃ s', for_each body (seqZ a len) s = Some s' ∧ P (a + len) s'.
Proof.
  intros Hlen. remember (Z.to_nat len) as k eqn:Hk.
  revert a len s Hlen Hk. induction k as [|k IH]; intros a len s Hlen Hk Hs Hbody.
  - assert (len = 0) as -> by lia. rewrite seqZ_nil by done.
    exists s. by rewrite Z.add_0_r.
  - rewrite seqZ_cons by lia. simpl.
    destruct (Hbody a s ltac:(lia) Hs) as (s1 & -> & Hs1).
    destruct (IH (Z.succ a) (Z.pred len) s1 ltac:(lia) ltac:(lia))
      as (s' & Hrun & Hs').
    + by replace (Z.succ a) with (a + 1) by lia.
    + intros i s2 Hi. apply Hbody. lia.
    + exists s'. split; [done|].
      by replace (a + len) with (Z.succ a + Z.pred len) by lia.
Qed.

Lemma row_start_closed n (a : nat) :
  Z.of_nat a ≤ n →
  2 * Z.of_nat (row_start n a) = Z.of_nat a * (2 * n - Z.of_nat a - 1).
Proof. induction a as [|a IH]; intros Ha; simpl row_start; [lia|nia]. Qed.

Lemma row_start_all n :
  0 ≤ n → row_start n (Z.to_nat n) = Z.to_nat (n * (n - 1) / 2).
Proof.
  intros Hn. pose proof (row_start_closed n (Z.to_nat n) ltac:(lia)) as H.
  rewrite Z2Nat.id in H by done.
  replace (n * (2 * n - n - 1)) with (n * (n - 1)) in H by lia.
  rewrite <- H, (Z.mul_comm 2), Z.div_mul by done. lia.
Qed.

Section generator_steps.
Context {Gen Real : Type} (dis : Gen → Real * Gen).
Context (real_lt : Real → Real → bool) (p : Real) (n : Z) (gen0 : Gen).

Lemma generator_inner_step i j s :
  0 ≤ i < j → j < n →
  generator_state dis real_lt p n gen0 i j s →
  ∃ s', greedy_mel.maybe_edge dis real_lt p i j s = Some s' ∧
        generator_state dis real_lt p n gen0 i (j + 1) s'.
Proof.
  intros Hi Hj ((Hc & HN & Hloop) & Hgen & Hadj).
  destruct s as [g gen]. simpl in *. subst gen.
  pose proof (constructed_wf _ Hc) as Hwf.
  assert (pair_index n i (j + 1) = S (pair_index n i j)) as Hnext
    by (unfold pair_index; lia).
  unfold greedy_mel.maybe_edge. simpl.
  destruct (dis (after_draws dis (pair_index n i j) gen0)) as [x gen'] eqn:Hdraw.
  assert (x = nth_draw dis (pair_index n i j) gen0) as Hx
    by (unfold nth_draw; by rewrite Hdraw).
  assert (gen' = after_draws dis (pair_index n i (j + 1)) gen0) as Hgen'.
  { rewrite Hnext. unfold after_draws. simpl. fold (after_draws dis (pair_index n i j) gen0).
    by rewrite Hdraw. }
  assert (in_range g i = true ∧ in_range g j = true) as [Hri Hrj]
    by (rewrite !in_range_spec; lia).
  destruct (real_lt x p) eqn:Hlt.
  - rewrite greedy_mel_add_edge by done. eexists. split; [done|].
    split_and!; simpl.
    + split_and!; [by constructor|by rewrite num_vertices_add_edge|].
      intros w [Hw|(_ & _ & [[-> ->]|[-> ->]])]%adjacent_add_edge;
        [by eapply Hloop|lia..|done].
    + done.
    + intros u v Huv. rewrite adjacent_add_edge, Hadj by done. split.
      * intros [(? & ? & ? & ?)|(_ & _ & [[-> ->]|[-> ->]])].
        -- split_and!; [done..|lia|done].
        -- split_and!; [lia..|by rewrite <- Hx].
        -- lia.
      * intros (? & ? & Hpos & Hd).
        destruct (decide (u = i ∧ v = j)) as [[-> ->]|Hne].
        -- right. auto.
        -- left. split_and!; [done..|lia|done].
  - eexists. split; [done|]. split_and!; simpl; [done..|].
    intros u v Huv. rewrite Hadj by done. split.
    + intros (? & ? & ? & ?). split_and!; [done..|lia|done].
    + intros (? & ? & Hpos & Hd). split_and!; [done..| |done].
      destruct (decide (u = i ∧ v = j)) as [[-> ->]|Hne]; [|lia].
      rewrite <- Hx in Hd. congruence.
Qed.

Lemma generator_outer_step i s :
  0 ≤ i < n →
  generator_state dis real_lt p n gen0 i (i + 1) s →
  ∃ s', for_each (greedy_mel.maybe_edge dis real_lt p i)
          (seqZ (i + 1) (n - (i + 1))) s = Some s' ∧
        generator_state dis real_lt p n gen0 (i + 1) (i + 1 + 1) s'.
Proof.
  intros Hi Hs.
  destruct (for_each_seqZ (generator_state dis real_lt p n gen0 i)
              (greedy_mel.maybe_edge dis real_lt p i)
              (i + 1) (n - (i + 1)) s ltac:(lia) Hs)
    as (s' & Hrun & Hgen & Hpos & Hadj).
  { intros j s1 Hj. apply generator_inner_step; lia. }
  exists s'. split; [done|].
  replace (i + 1 + (n - (i + 1))) with n in * by lia.
  split_and!; [done| |].
  - rewrite Hpos. f_equal. unfold pair_index.
    replace (Z.to_nat (i + 1)) with (S (Z.to_nat i)) by lia.
    simpl row_start. lia.
  - intros u v Huv. rewrite Hadj by done. split.
    + intros (? & ? & ? & ?). split_and!; [done..|lia|done].
    + intros (? & ? & ? & ?). split_and!; [done..|lia|done].
Qed.
End generator_steps.

Lemma create_random_graph_pairs
    {Gen Real : Type} (dis : Gen → Real * Gen)
    (real_lt : Real → Real → bool)
    (n : Z) (edge_probability : Real) (gen : Gen) :
  0 ≤ n →
  ∃ g gen',
    greedy_mel.create_random_graph dis real_lt n edge_probability gen
      = Returned (g, gen') [] ∧
    generated n g ∧
    gen' = after_draws dis (Z.to_nat (n * (n - 1) / 2)) gen ∧
    ∀ u v, 0 ≤ u → u < v → v < n →
      (adjacent g u v ↔
       real_lt (nth_draw dis (pair_index n u v) gen) edge_probability = true).
Proof.
  intros Hn. unfold greedy_mel.create_random_graph.
  destruct (Graph_ctor n) as [g0|] eqn:Hg0;
    [|unfold Graph_ctor in Hg0; by rewrite decide_True in Hg0].
  destruct (for_each_seqZ
              (λ i, generator_state dis real_lt edge_probability n gen i (i + 1))
              (λ i, for_each (greedy_mel.maybe_edge dis real_lt edge_probability i)
                      (seqZ (i + 1) (n - (i + 1))))
              0 n (g0, gen) Hn)
    as ([g gen'] & -> & Hgenerated & Hgen & Hadj).
  - split_and!; simpl.
    + split_and!; [by eapply constructed_ctor
                  |by eapply Graph_ctor_num_vertices
                  |intros w; by eapply Graph_ctor_not_adjacent].
    + done.
    + intros u v Huv. split.
      * intros Hno. by apply (Graph_ctor_not_adjacent _ _ _ _ Hg0) in Hno.
      * intros (? & ? & ? & _). lia.
  - intros i s Hi. apply generator_outer_step. lia.
  - simpl in *. exists g, gen'. split_and!; [done..| |].
    + rewrite Hgen. f_equal. unfold pair_index.
      replace (Z.to_nat (0 + n)) with (Z.to_nat n) by lia.
      rewrite row_start_all by done. lia.
    + intros u v Hu Huv Hv. rewrite Hadj by done.
      split; [by intros (_ & _ & _ & ?)|]. intros Hd. split_and!; [done..|lia|done].
Qed.

(** X21.  The generator decides every pair by its own draw: for a vertex
    count [n >= 0] it returns a graph on [n] vertices in which [u < v]
    are adjacent exactly when the draw numbered by the position of
    [(u,v)] in the order of the loops (rows by ascending [i], each by
    ascending [j]) is below the edge probability; and it leaves the
    engine after [n(n-1)/2] draws, one per pair. *)
Theorem generator_decides_each_pair_once
    {Gen Real : Type} (dis : Gen → Real * Gen)
    (real_lt : Real → Real → bool)
    (n : Z) (edge_probability : Real) (gen : Gen) :
  0 ≤ n →
  ∃ g gen',
    greedy_mel.create_random_graph dis real_lt n edge_probability gen
      = Returned (g, gen') [] ∧
    num_vertices_ g = n ∧
    gen' = after_draws dis (Z.to_nat (n * (n - 1) / 2)) gen ∧
    ∀ u v, 0 ≤ u → u < v → v < n →
      (is_adjacent g u v = Some true ↔
       real_lt (nth_draw dis (pair_index n u v) gen) edge_probability = true).
Proof.
  intros Hn.
  destruct (create_random_graph_pairs dis real_lt n edge_probability gen Hn)
    as (g & gen' & Hrun & (_ & HN & _) & Hgen & Hadj).
  by exists g, gen'.
Qed.

Lemma generator_decides_each_pair_once_witness :
  ∃ g gen',
    greedy_mel.create_random_graph (λ gen : Z, (gen, gen + 1)) Z.ltb 3 1 0
      = Returned (g, gen') [] ∧
    num_vertices_ g = 3 ∧
    gen' = after_draws (λ gen : Z, (gen, gen + 1))
             (Z.to_nat (3 * (3 - 1) / 2)) 0 ∧
    ∀ u v, 0 ≤ u → u < v → v < 3 →
      (is_adjacent g u v = Some true ↔
       Z.ltb (nth_draw (λ gen : Z, (gen, gen + 1)) (pair_index 3 u v) 0) 1
         = true).
Proof.
  apply (generator_decides_each_pair_once
           (λ gen : Z, (gen, gen + 1)) Z.ltb 3 1 0).
  lia.
Defined.







(** ** Cost and size of the neighbourhood trials *)

Lemma greedy_within g (Hwf : Graph_wf g) order pool :
  order ≡ₚ pool → NoDup pool → all_in_range g pool →
  ∃ local_clique,
    find_greedy_max_clique g order = Some local_clique ∧
    NoDup local_clique ∧
    (∀ m, m ∈ local_clique → m ∈ pool) ∧
    (length local_clique ≤ length pool)%nat.
Proof.
  intros Hperm Hnd Hpool.
  assert (all_in_range g order) as Hord.
  { unfold all_in_range in *. by rewrite Hperm. }
  destruct (greedy_loop_total g Hwf order [] Hord (greedy_inv_nil g))
    as (local & Hrun & _).
  destruct (greedy_loop_sublist g _ _ _ Hrun) as (added & -> & Hsub).
  simpl in *. exists added.
  assert (NoDup added) as Hnd'.
  { eapply sublist_NoDup; [|done]. by rewrite Hperm. }
  assert (∀ m, m ∈ added → m ∈ pool) as Hin.
  { intros m Hm. rewrite <- Hperm. by eapply elem_of_sublist. }
  split_and!; [done..|]. by apply submseteq_length, NoDup_submseteq.
Qed.

(** X24.  What a neighbourhood-restricted trial costs and how large its
    clique can be, for any seed (a vertex or not) on a constructed graph:
    the noisy weighted trial draws from its engine once per neighbour of
    the seed; in both variants the clique is the seed after distinct
    neighbours of the seed, so it has at most [get_degree(seed) + 1]
    members, and it is the seed alone when the seed has no neighbour. *)
Theorem neighborhood_trial_cost_and_size
    {Gen Real : Type} (noise_dist : Gen → Real * Gen) (of_int : Z → Real)
    (real_add : Real → Real → Real) (real_lt : Real → Real → bool)
    (g : Graph) (seed : Z) (gen : Gen) :
  constructed g →
  (∃ local_clique gen',
      weight_neighborhood.trial noise_dist of_int real_add real_lt
        g (weight_neighborhood.global_degrees g) seed gen
        = Some (local_clique ++ [seed], gen') ∧
      gen' = after_draws noise_dist (Z.to_nat (get_degree g seed)) gen ∧
      NoDup local_clique ∧
      (∀ m, m ∈ local_clique → m ∈ get_neighbors g seed) ∧
      Z.of_nat (length (local_clique ++ [seed])) ≤ get_degree g seed + 1) ∧
  (∃ local_clique,
      random_neighborhood.trial g seed = Some (local_clique ++ [seed]) ∧
      NoDup local_clique ∧
      (∀ m, m ∈ local_clique → m ∈ get_neighbors g seed) ∧
      Z.of_nat (length (local_clique ++ [seed])) ≤ get_degree g seed + 1).
Proof.
  intros Hwf%constructed_wf.
  assert (all_in_range g (get_neighbors g seed)) as Hpool.
  { apply Forall_forall. intros u. apply (get_neighbors_in_range g Hwf). }
  pose proof (get_neighbors_NoDup g seed) as Hnd.
  pose proof (get_neighbors_length g seed) as Hlen.
  split.
  - unfold weight_neighborhood.trial.
    destruct (weigh_total noise_dist of_int real_add
                (weight_neighborhood.global_degrees g)
                (get_neighbors g seed) gen) as (weighted & gen' & Hweigh & Hsnd).
    { apply Forall_forall. intros u Hu%(get_neighbors_in_range g Hwf).
      rewrite vec_at_global_degrees by done. by eexists. }
    rewrite Hweigh.
    destruct (greedy_within g Hwf
                (weight_neighborhood.sort_descending real_lt weighted).*2
                (get_neighbors g seed))
      as (local & -> & Hnd' & Hin & Hle); [|done..|].
    { by rewrite sort_descending_Permutation, Hsnd. }
    exists local, gen'. split_and!; [done| |done..|].
    + apply weigh_draws in Hweigh. rewrite Hweigh. f_equal. lia.
    + rewrite length_app. simpl. lia.
  - unfold random_neighborhood.trial,
      random_neighborhood.find_greedy_clique_in_subset.
    destruct (mapM_sized g Hwf (get_neighbors g seed) Hpool)
      as (keyed & -> & Hsnd).
    simpl.
    destruct (greedy_within g Hwf
                (std_sort random_neighborhood.larger_first keyed).*2
                (get_neighbors g seed))
      as (local & Hrun & Hnd' & Hin & Hle); [|done..|].
    { unfold std_sort. by rewrite merge_sort_Permutation, Hsnd. }
    unfold find_greedy_max_clique in Hrun. rewrite Hrun. simpl.
    exists local. split_and!; [done..|].
    rewrite length_app. simpl. lia.
Qed.

Lemma neighborhood_trial_cost_and_size_witness :
  (∃ local_clique gen',
      weight_neighborhood.trial (λ gen : Z, (gen, gen + 1)) id Z.add Z.ltb
        scenario_A (weight_neighborhood.global_degrees scenario_A) 3 0
        = Some (local_clique ++ [3], gen') ∧
      gen' = after_draws (λ gen : Z, (gen, gen + 1))
               (Z.to_nat (get_degree scenario_A 3)) 0 ∧
      NoDup local_clique ∧
      (∀ m, m ∈ local_clique → m ∈ get_neighbors scenario_A 3) ∧
      Z.of_nat (length (local_clique ++ [3]))
        ≤ get_degree scenario_A 3 + 1) ∧
  (∃ local_clique,
      random_neighborhood.trial scenario_A 3 = Some (local_clique ++ [3]) ∧
      NoDup local_clique ∧
      (∀ m, m ∈ local_clique → m ∈ get_neighbors scenario_A 3) ∧
      Z.of_nat (length (local_clique ++ [3]))
        ≤ get_degree scenario_A 3 + 1).
Proof.
  apply (neighborhood_trial_cost_and_size (λ gen : Z, (gen, gen + 1))
           id Z.add Z.ltb scenario_A 3 0).
  do 4 apply constructed_add. by apply (constructed_ctor 4).
Defined.

(** ** The hash-map graph and the vector graph *)

Lemma hash_lookup_add_edge h a b w :
  default ∅ (hash_graph.adj_list_ (hash_graph.add_edge h a b) !! w) =
  (if decide (w = b) then {[a]} else ∅) ∪
  (if decide (w = a) then {[b]} else ∅) ∪
  default ∅ (hash_graph.adj_list_ h !! w).
Proof.
  unfold hash_graph.add_edge, hash_graph.insert_at. simpl.
  rewrite !lookup_insert.
  destruct (decide (w = b)), (decide (w = a)), (decide (a = b));
    repeat case_decide; simplify_eq; simpl; set_solver.
Qed.

Lemma hash_is_adjacent_default h u v :
  hash_graph.is_adjacent h u v =
  bool_decide (v ∈ default ∅ (hash_graph.adj_list_ h !! u)).
Proof.
  unfold hash_graph.is_adjacent.
  destruct (hash_graph.adj_list_ h !! u); simpl; [done|].
  symmetry. apply bool_decide_eq_false. set_solver.
Qed.

Lemma same_adjacency_ctor n g :
  Graph_ctor n = Some g → same_adjacency (hash_graph.Graph_ctor n) g.
Proof.
  unfold Graph_ctor. case_decide as Hn; [|done]. intros [= <-].
  split; [done|]. intros u [H0 H1]%in_range_spec. simpl in *.
  unfold adj_at. simpl. rewrite decide_True, lookup_empty by done. simpl.
  apply lookup_replicate_2. lia.
Qed.

Lemma same_adjacency_add_edge h g a b :
  same_adjacency h g → in_range g a = true → in_range g b = true →
  same_adjacency (hash_graph.add_edge h a b) (add_edge g a b).
Proof.
  intros [HN Hadj] Ha Hb. split.
  - by rewrite num_vertices_add_edge.
  - intros u. rewrite in_range_add_edge. intros Hu.
    rewrite adj_at_add_edge, (Hadj u Hu), hash_lookup_add_edge by done.
    done.
Qed.

Lemma num_vertices_foldl_add_edge g (edges : list (Z * Z)) :
  num_vertices_ (foldl (λ g e, add_edge g e.1 e.2) g edges) = num_vertices_ g.
Proof.
  revert g. induction edges as [|e edges IH]; intros g; simpl; [done|].
  by rewrite IH, num_vertices_add_edge.
Qed.

Lemma same_adjacency_foldl h g (edges : list (Z * Z)) :
  same_adjacency h g → constructed g →
  Forall (λ e : Z * Z, in_range g e.1 = true ∧ in_range g e.2 = true) edges →
  same_adjacency (foldl (λ h e, hash_graph.add_edge h e.1 e.2) h edges)
                 (foldl (λ g e, add_edge g e.1 e.2) g edges) ∧
  constructed (foldl (λ g e, add_edge g e.1 e.2) g edges).
Proof.
  intros Hsame Hc Hedges. revert h g Hsame Hc Hedges.
  induction edges as [|[a b] edges IH]; intros h g Hsame Hc Hedges; simpl;
    [done|].
  apply Forall_cons in Hedges as [[Ha Hb] Hedges]. simpl in Ha, Hb.
  apply IH.
  - by apply same_adjacency_add_edge.
  - by constructor.
  - eapply Forall_impl; [done|]. intros e. by rewrite !in_range_add_edge.
Qed.

Section same.
Context (h : hash_graph.Graph) (g : Graph) (Hsame : same_adjacency h g).

Lemma same_is_adjacent u v :
  in_range g u = true →
  is_adjacent g u v = Some (hash_graph.is_adjacent h u v).
Proof.
  intros Hu. destruct Hsame as [_ Hadj]. unfold is_adjacent.
  rewrite (Hadj u Hu). simpl. by rewrite hash_is_adjacent_default.
Qed.

Lemma same_can_add u clique :
  in_range g u = true →
  can_add g u clique = Some (hash_graph.can_add h u clique).
Proof.
  intros Hu. induction clique as [|v rest IH]; simpl; [done|].
  rewrite (same_is_adjacent u v Hu).
  by destruct (hash_graph.is_adjacent h u v).
Qed.

Lemma same_greedy_loop vertex_order clique :
  all_in_range g vertex_order →
  greedy_loop g vertex_order clique =
  Some (hash_graph.greedy_loop h vertex_order clique).
Proof.
  intros Hord. revert clique.
  induction Hord as [|u rest Hu _ IH]; intros clique; simpl; [done|].
  rewrite (same_can_add u clique Hu).
  by destruct (hash_graph.can_add h u clique).
Qed.

Lemma same_degree_order :
  0 ≤ num_vertices_ g →
  get_vertices_sorted_by_degree g =
  Some (hash_graph.get_vertices_sorted_by_degree h).
Proof.
  intros Hn. destruct Hsame as [HN Hadj].
  unfold get_vertices_sorted_by_degree,
    hash_graph.get_vertices_sorted_by_degree.
  rewrite HN.
  assert (mapM (degree_entry g) (seqZ 0 (num_vertices_ g)) =
          Some ((λ i, (- hash_graph.degree h i, i))
                  <$> seqZ 0 (num_vertices_ g))) as ->; [|done].
  apply mapM_Some, Forall2_fmap_r, Forall_Forall2_diag, Forall_forall.
  intros i Hi%elem_of_seqZ. unfold degree_entry.
  rewrite (Hadj i) by (apply in_range_spec; lia). simpl.
  unfold hash_graph.degree.
  destruct (hash_graph.adj_list_ h !! i); [done|].
  change (default ∅ None) with (∅ : gset Z). by rewrite size_empty.
Qed.
End same.

(** X25.  The two representations agree.  For a list of edges between
    vertices of [0,n) (what the generator produces), the hash-map graph of
    the older programs and the vector graph built from the same
    [add_edge] calls give the same [is_adjacent] on every vertex, the
    same degree ordering, and the same greedy clique on every ordering of
    in-range vertices. *)
Theorem hash_graph_agrees_with_vector_graph (n : Z) (edges : list (Z * Z)) :
  0 ≤ n →
  Forall (λ e : Z * Z, (0 ≤ e.1 < n) ∧ (0 ≤ e.2 < n)) edges →
  (∀ u v, 0 ≤ u < n →
     is_adjacent (graph_of_edges n edges) u v =
     Some (hash_graph.is_adjacent (hash_graph.graph_of_edges n edges) u v)) ∧
  get_vertices_sorted_by_degree (graph_of_edges n edges) =
    Some (hash_graph.get_vertices_sorted_by_degree
            (hash_graph.graph_of_edges n edges)) ∧
  (∀ vertex_order, all_in_range (graph_of_edges n edges) vertex_order →
     find_greedy_max_clique (graph_of_edges n edges) vertex_order =
     Some (hash_graph.find_greedy_max_clique
             (hash_graph.graph_of_edges n edges) vertex_order)).
Proof.
  intros Hn Hedges. unfold graph_of_edges, hash_graph.graph_of_edges.
  set (g0 := mkGraph n (replicate (Z.to_nat n) ∅)).
  assert (Graph_ctor n = Some g0) as Hg0.
  { unfold Graph_ctor. by rewrite decide_True by lia. }
  destruct (same_adjacency_foldl (hash_graph.Graph_ctor n) g0 edges)
    as [Hsame Hc].
  { by apply same_adjacency_ctor. }
  { by eapply constructed_ctor. }
  { eapply Forall_impl; [done|]. intros e [? ?].
    by rewrite !in_range_spec. }
  pose proof (constructed_wf _ Hc) as Hwf.
  pose proof (num_vertices_foldl_add_edge g0 edges) as HN. simpl in HN.
  split_and!.
  - intros u v Hu. apply (same_is_adjacent _ _ Hsame).
    apply in_range_spec. rewrite HN. lia.
  - apply (same_degree_order _ _ Hsame). apply Hwf.
  - intros order Hord. apply (same_greedy_loop _ _ Hsame _ _ Hord).
Qed.

Lemma hash_graph_agrees_with_vector_graph_witness :
  (∀ u v, 0 ≤ u < 4 →
     is_adjacent (graph_of_edges 4 [(0, 1); (0, 2); (1, 2); (2, 3)]) u v =
     Some (hash_graph.is_adjacent
             (hash_graph.graph_of_edges 4 [(0, 1); (0, 2); (1, 2); (2, 3)])
             u v)) ∧
  get_vertices_sorted_by_degree
    (graph_of_edges 4 [(0, 1); (0, 2); (1, 2); (2, 3)]) =
    Some (hash_graph.get_vertices_sorted_by_degree
            (hash_graph.graph_of_edges 4 [(0, 1); (0, 2); (1, 2); (2, 3)])) ∧
  (∀ vertex_order,
     all_in_range (graph_of_edges 4 [(0, 1); (0, 2); (1, 2); (2, 3)])
       vertex_order →
     find_greedy_max_clique
       (graph_of_edges 4 [(0, 1); (0, 2); (1, 2); (2, 3)]) vertex_order =
     Some (hash_graph.find_greedy_max_clique
             (hash_graph.graph_of_edges 4 [(0, 1); (0, 2); (1, 2); (2, 3)])
             vertex_order)).
Proof.
  apply (hash_graph_agrees_with_vector_graph 4
           [(0, 1); (0, 2); (1, 2); (2, 3)]).
  - lia.
  - repeat constructor; simpl; lia.
Defined.

(** X26.  The hash-map graph has no range guard: for any two [int]s,
    in range or not, [add_edge(a,b)] makes [a] and [b] adjacent in both
    directions, leaves every other pair as it was, and keeps the vertex
    count; so its adjacency stays symmetric, but it can hold vertices
    outside [0,N) that the degree ordering never lists. *)
Theorem hash_graph_add_edge_unguarded (h : hash_graph.Graph) (a b u v : Z) :
  hash_graph.is_adjacent (hash_graph.add_edge h a b) u v =
    hash_graph.is_adjacent h u v
    || bool_decide (u = a ∧ v = b) || bool_decide (u = b ∧ v = a) ∧
  hash_graph.num_vertices_ (hash_graph.add_edge h a b) =
    hash_graph.num_vertices_ h ∧
  ((∀ x y, hash_graph.is_adjacent h x y = hash_graph.is_adjacent h y x) →
   ∀ x y, hash_graph.is_adjacent (hash_graph.add_edge h a b) x y =
          hash_graph.is_adjacent (hash_graph.add_edge h a b) y x) ∧
  (∀ w, w ∈ hash_graph.get_vertices_sorted_by_degree h →
        0 ≤ w < hash_graph.num_vertices_ h).
Proof.
  assert (∀ x y, hash_graph.is_adjacent (hash_graph.add_edge h a b) x y =
            hash_graph.is_adjacent h x y
            || bool_decide (x = a ∧ y = b) || bool_decide (x = b ∧ y = a))
    as Hlookup.
  { intros x y. rewrite !hash_is_adjacent_default, hash_lookup_add_edge.
    apply eq_true_iff_eq.
    rewrite !orb_true_iff, !bool_decide_eq_true, !elem_of_union.
    destruct (decide (x = b)), (decide (x = a)); set_solver. }
  split_and!; [apply Hlookup|done| |].
  - intros Hsym x y. rewrite !Hlookup, (Hsym x y).
    apply eq_true_iff_eq.
    rewrite !orb_true_iff, !bool_decide_eq_true. tauto.
  - intros w. unfold hash_graph.get_vertices_sorted_by_degree, std_sort.
    intros (e & -> & He)%list_elem_of_fmap.
    rewrite merge_sort_Permutation in He.
    apply list_elem_of_fmap in He as (i & -> & Hi%elem_of_seqZ). simpl. lia.
Qed.

(** ** The result of a run *)

Lemma run_locked_elem_of completion :
  completion ≠ [] → run_locked completion ∈ completion.
Proof.
  intros Hne. unfold run_locked.
  assert (∀ best l, foldl offer_locked best l = best ∨
                    foldl offer_locked best l ∈ l) as Hfold.
  { intros best l. revert best.
    induction l as [|c l IH]; intros best; simpl; [by left|].
    destruct (IH (offer_locked best c)) as [->|Hin]; [|right; by right].
    unfold offer_locked. destruct (_ <? _)%nat; [right; by left|by left]. }
  destruct (Hfold [] completion) as [Hnil|Hin]; [|done].
  pose proof (run_locked_length completion) as Hlen.
  unfold run_locked in Hlen. rewrite Hnil in *. simpl in Hlen.
  destruct completion as [|c l]; [done|].
  assert (length c = 0)%nat as ->%nil_length_inv; [|by left].
  unfold largest_size in Hlen. simpl in Hlen. lia.
Qed.

(** X27.  The answer of a run of [dataset_taskflow_greedy.cc].  On a
    constructed graph, when [std::shuffle] permutes its range, every trial
    returns a clique, and for any number of shuffled trials and any order
    in which the trials complete, the clique held at the end is the
    clique of one of the trials, a maximal clique of the graph without
    repetition, and at least as large as the clique of every trial, the
    degree-ordered one included. *)
Theorem search_returns_maximal_clique
    {Gen : Type} (shuffle : list Z → Gen → list Z * Gen)
    (g : Graph) (gens : list Gen) :
  constructed g →
  (∀ l s, (shuffle l s).1 ≡ₚ l) →
  ∃ outputs baseline,
    search_outputs shuffle g gens = Some outputs ∧
    degree_order_trial g = Some baseline ∧
    ∀ completion, completion ≡ₚ outputs →
      run_locked completion ∈ outputs ∧
      maximal_clique g (run_locked completion) ∧
      NoDup (run_locked completion) ∧
      (length baseline ≤ length (run_locked completion))%nat ∧
      (∀ c, c ∈ outputs → (length c ≤ length (run_locked completion))%nat).
Proof.
  intros Hc Hshuffle. pose proof (constructed_wf _ Hc) as Hwf.
  destruct (get_vertices_sorted_by_degree_spec g Hwf)
    as (order & Horder & Hperm & _).
  destruct (greedy_all_vertices g Hwf order Hperm)
    as (baseline & Hbase & Hbmax & Hbnd & _).
  assert (degree_order_trial g = Some baseline) as Hdeg.
  { unfold degree_order_trial. by rewrite Horder. }
  assert (∃ shuffled,
            mapM id (shuffle_trial shuffle g <$> gens) = Some shuffled ∧
            Forall (λ c, maximal_clique g c ∧ NoDup c) shuffled)
    as (shuffled & Hsh & Hall).
  { induction gens as [|gen gens (shuffled & Hsh & Hall)]; [by exists []|].
    destruct (greedy_all_vertices g Hwf
                (shuffle (seqZ 0 (num_vertices_ g)) gen).1 (Hshuffle _ _))
      as (c & Hrun & Hmax & Hnd & _).
    exists (c :: shuffled). split; [|by constructor].
    rewrite fmap_cons. apply mapM_Some. constructor; [done|].
    by apply mapM_Some. }
  exists (baseline :: shuffled), baseline. split_and!; [|done|].
  { unfold search_outputs. apply mapM_Some. constructor; [done|].
    by apply mapM_Some. }
  intros completion Hcomp.
  assert (run_locked completion ∈ baseline :: shuffled) as Hin.
  { rewrite <- Hcomp. apply run_locked_elem_of. intros ->.
    by apply Permutation_nil_l in Hcomp. }
  assert (∀ c, c ∈ baseline :: shuffled →
               (length c ≤ length (run_locked completion))%nat) as Hlargest.
  { intros c Hcin. rewrite run_locked_length. unfold largest_size.
    rewrite Hcomp. clear -Hcin.
    induction Hcin as [c l|c c' l _ IH]; simpl; lia. }
  assert (Forall (λ c, maximal_clique g c ∧ NoDup c) (baseline :: shuffled))
    as Hgood by by constructor.
  rewrite Forall_forall in Hgood. destruct (Hgood _ Hin) as [Hmax Hnd].
  split_and!; [done..| |done]. apply Hlargest. by left.
Qed.

Lemma search_returns_maximal_clique_witness :
  ∃ outputs baseline,
    search_outputs (λ l (s : Z), (reverse l, s)) scenario_A [0; 1]
      = Some outputs ∧
    degree_order_trial scenario_A = Some baseline ∧
    ∀ completion, completion ≡ₚ outputs →
      run_locked completion ∈ outputs ∧
      maximal_clique scenario_A (run_locked completion) ∧
      NoDup (run_locked completion) ∧
      (length baseline ≤ length (run_locked completion))%nat ∧
      (∀ c, c ∈ outputs → (length c ≤ length (run_locked completion))%nat).
Proof.
  apply (search_returns_maximal_clique (λ l (s : Z), (reverse l, s))
           scenario_A [0; 1]).
  - do 4 apply constructed_add. by apply (constructed_ctor 4).
  - intros l s. simpl. apply reverse_Permutation.
Defined.

(** ** The output of a run *)

Lemma not_after_ltb a b : not_after Z.ltb a b ↔ a ≤ b.
Proof. unfold not_after. by rewrite Z.ltb_ge. Qed.

#[local] Instance not_after_ltb_total : Total (not_after Z.ltb).
Proof. intros a b. rewrite !not_after_ltb. lia. Qed.

#[local] Instance not_after_ltb_trans : Transitive (not_after Z.ltb).
Proof. intros a b c. rewrite !not_after_ltb. lia. Qed.

(** X28.  The numbers a run prints are the vertex numbers of the input
    file: for a clique of vertices (numbers from 0), the printed list is
    the clique in ascending order with every number raised by one, so
    every printed number is positive, the loader's conversion
    ([if (u > 0) u--]) gives back the sorted clique, and printing loses no
    vertex.  The preview shows the first 20 of them and marks an omission
    exactly when the clique has more than 20 members. *)
Theorem printed_clique_is_one_based (best_clique : list Z) :
  Forall (λ v, 0 ≤ v) best_clique →
  to_zero_based <$> clique_numbers best_clique = std_sort Z.ltb best_clique ∧
  clique_numbers best_clique ≡ₚ (λ v, v + 1) <$> best_clique ∧
  StronglySorted Z.le (clique_numbers best_clique) ∧
  Forall (λ k, 1 ≤ k) (clique_numbers best_clique) ∧
  length (clique_preview best_clique).1 = (length best_clique `min` 20)%nat ∧
  ((clique_preview best_clique).2 = true ↔ (20 < length best_clique)%nat).
Proof.
  intros Hpos. unfold clique_preview, clique_numbers, std_sort. simpl.
  pose proof (merge_sort_Permutation (not_after Z.ltb) best_clique) as Hperm.
  assert (Forall (λ v, 0 ≤ v) (merge_sort (not_after Z.ltb) best_clique))
    as Hpos' by by rewrite Hperm.
  split_and!.
  - rewrite <- list_fmap_compose.
    rewrite <- (list_fmap_id (merge_sort _ best_clique)) at 2.
    apply Forall_fmap_ext_1. eapply Forall_impl; [exact Hpos'|].
    intros v Hv. simpl in *. unfold to_zero_based.
    destruct (Z.ltb_spec 0 (v + 1)); lia.
  - by rewrite Hperm.
  - apply StronglySorted_fmap with (R1 := not_after Z.ltb).
    + intros a b Hab%not_after_ltb. lia.
    + apply StronglySorted_merge_sort; apply _.
  - apply Forall_fmap. eapply Forall_impl; [exact Hpos'|].
    intros v Hv. simpl in *. lia.
  - rewrite length_take, length_fmap, Hperm. lia.
  - by rewrite bool_decide_eq_true.
Qed.

Lemma printed_clique_is_one_based_witness :
  to_zero_based <$> clique_numbers [2; 0; 1] = std_sort Z.ltb [2; 0; 1] ∧
  clique_numbers [2; 0; 1] ≡ₚ (λ v, v + 1) <$> [2; 0; 1] ∧
  StronglySorted Z.le (clique_numbers [2; 0; 1]) ∧
  Forall (λ k, 1 ≤ k) (clique_numbers [2; 0; 1]) ∧
  length (clique_preview [2; 0; 1]).1 = (length [2; 0; 1] `min` 20)%nat ∧
  ((clique_preview [2; 0; 1]).2 = true ↔ (20 < length [2; 0; 1])%nat).
Proof.
  apply (printed_clique_is_one_based [2; 0; 1]). repeat constructor; lia.
Defined.
